(** * Three-tier IP range database builder: the merger, the classifier and
      the table assembly of [build_database.py], with their properties. *)

From Stdlib Require Import ZArith Lia Strings.Ascii.
From stdpp Require Import base numbers option list strings gmap sorting.

Local Open Scope Z_scope.

(** ** Data model *)

(** An address range is the Python tuple [(start, end)] of two ints. *)
Definition range : Type := Z * Z.

(** An entry of the final table is the Python list [[s, e, country]]. *)
Definition entry : Type := Z * Z * string.

Definition entry_start (x : entry) : Z := x.1.1.
Definition entry_end (x : entry) : Z := x.1.2.
Definition entry_code (x : entry) : string := x.2.

(** ** Python's stable [list.sort]

    [list.sort] is a stable sort: elements that compare equal keep their
    relative order. A right fold of ordered insertion, each element placed
    before the first one it is not greater than, yields exactly that list. *)
Section Sorting.
Context {A : Type} (leb : A → A → bool).

Fixpoint insert_by (x : A) (l : list A) : list A :=
  match l with
  | [] => [x]
  | y :: l' => if leb x y then x :: y :: l' else y :: insert_by x l'
  end.

Fixpoint sort_by (l : list A) : list A :=
  match l with
  | [] => []
  | x :: l' => insert_by x (sort_by l')
  end.

(** The relation that [leb] decides. *)
Definition le_of (x y : A) : Prop := leb x y = true.
End Sorting.

(** Order of Python tuples of two ints: lexicographic. *)
Definition range_leb (a b : range) : bool :=
  (a.1 <? b.1) || ((a.1 =? b.1) && (a.2 <=? b.2)).

Definition range_le (a b : range) : Prop :=
  a.1 < b.1 ∨ (a.1 = b.1 ∧ a.2 ≤ b.2).

(** [ranges.sort()] *)
Definition sort_ranges (ranges : list range) : list range :=
  sort_by range_leb ranges.

(** ** The tiered merger, [tiered_merge_ranges] *)

(** The threshold chosen inside the loop body from [tier_level]. *)
Definition merge_threshold (tier_level : Z) : Z :=
  if tier_level =? 1 then 1
  else if tier_level =? 2 then 262144
  else 16777216.

(** The loop state: the list [merged] and the open interval [(cs, ce)]. *)
Definition sweep_state : Type := list range * Z * Z.

(** One iteration of [for s, e in ranges[1:]]. *)
Definition sweep_step (tier_level : Z) (st : sweep_state) (r : range)
  : sweep_state :=
  let '(merged, cs, ce) := st in
  let '(s, e) := r in
  if s - ce <=? merge_threshold tier_level
  then (merged, cs, if e >? ce then e else ce)
  else (merged ++ [(cs, ce)], s, e).

Definition tiered_merge_ranges (ranges : list range) (tier_level : Z)
  : list range :=
  match ranges with
  | [] => []
  | _ :: _ =>
      match sort_ranges ranges with
      | [] => []
      | (cs, ce) :: rest =>
          let '(merged, cs', ce') :=
            foldl (sweep_step tier_level) ([], cs, ce) rest in
          merged ++ [(cs', ce')]
      end
  end.

(** ** The merger as the specification words it

    Sort by the pair, then sweep: [(s, e)] is absorbed into the open interval
    when [s - ce <= threshold], with [ce] becoming [max ce e]; otherwise the
    open interval is emitted and [(s, e)] opens the next one; the last open
    interval is emitted at the end. *)
Fixpoint sweep (threshold cs ce : Z) (l : list range) : list range :=
  match l with
  | [] => [(cs, ce)]
  | (s, e) :: l' =>
      if s - ce <=? threshold
      then sweep threshold cs (Z.max ce e) l'
      else (cs, ce) :: sweep threshold s e l'
  end.

Definition merge_spec (threshold : Z) (ranges : list range) : list range :=
  match sort_ranges ranges with
  | [] => []
  | (cs, ce) :: rest => sweep threshold cs ce rest
  end.

(** ** Coverage and shape predicates on range lists *)

(** Address [x] lies in the closed interval of [r]. *)
Definition in_range (x : Z) (r : range) : Prop := r.1 ≤ x ≤ r.2.

(** Address [x] is covered by some range of [l]. *)
Definition covered (x : Z) (l : list range) : Prop :=
  ∃ r, r ∈ l ∧ in_range x r.

Definition well_formed (r : range) : Prop := r.1 ≤ r.2.

(** Two closed intervals share no address. *)
Definition disjoint_ranges (a b : range) : Prop := a.2 < b.1 ∨ b.2 < a.1.

(** Every consecutive pair is separated by a gap wider than [t]. *)
Definition gapped (t : Z) (a b : range) : Prop := b.1 - a.2 > t.

(** ** Tier configuration *)

Definition TIER1_COUNTRIES : gset string :=
  {[ "CN"; "HK"; "JP"; "KR"; "US"; "AU"; "NZ"; "SG" ]}.

Definition TIER2_COUNTRIES : gset string :=
  {[ "DE"; "GB"; "FR"; "RU"; "IN"; "CA"; "IT"; "NL"; "TW" ]}.

Definition OTHER_COUNTRY_CODE : string := "ZZ".

(** [sorted(S)] for a set of strings. *)
Definition sorted_codes (S : gset string) : list string :=
  sort_by String.leb (elements S).

(** ** Exceptions *)

Inductive exn : Type := KeyError | ValueError.

Inductive result (A : Type) : Type :=
  | Ok (a : A)
  | Raise (e : exn).
Arguments Ok {A} a.
Arguments Raise {A} e.

#[global] Instance result_ret : MRet result := λ A, Ok.
#[global] Instance result_bind : MBind result := λ A B f m,
  match m with Ok a => f a | Raise e => Raise e end.

(** [try: body / except: continue], the state [st] being the one the loop
    continues with when the body raises. *)
Definition try_except {A : Type} (body : result A) (st : A) : result A :=
  match body with Ok a => Ok a | Raise _ => Ok st end.

(** [d[k]] *)
Definition dict_getitem {K : Type} `{Countable K} {V : Type}
    (d : gmap K V) (k : K) : result V :=
  match d !! k with Some v => Ok v | None => Raise KeyError end.

(** A [for] loop whose body may raise. *)
Fixpoint for_each {S X : Type} (body : S → X → result S) (st : S)
    (xs : list X) : result S :=
  match xs with
  | [] => Ok st
  | x :: xs' => st' ← body st x; for_each body st' xs'
  end.

(** ** The classifier, step 3 of [main] *)

(** A row of [csv.DictReader]: column name to field. A column that is
    absent here stands for a missing column and for the [None] a short line
    gives: [row.get] returns [None] for both, and [row['network'].strip()]
    raises for both. *)
Abbreviation csv_row := (gmap string string).

(** Truth value of a Python [str]. *)
Definition truthy (s : string) : bool :=
  match s with EmptyString => false | String _ _ => true end.

(** [a or b] on the results of [row.get]. *)
Definition py_or (a b : option string) : option string :=
  match a with
  | Some s => if truthy s then a else b
  | None => b
  end.

Record buckets : Type := Buckets {
  tier1_data : gmap string (list range);
  tier2_data : gmap string (list range);
  tier3_data : list range
}.

(** [{c: [] for c in TIER1_COUNTRIES}], the same for tier 2, and [[]]. *)
Definition initial_buckets : buckets :=
  {| tier1_data := gset_to_gmap [] TIER1_COUNTRIES;
     tier2_data := gset_to_gmap [] TIER2_COUNTRIES;
     tier3_data := [] |}.

(** [d[k].append(r)] *)
Definition dict_append (d : gmap string (list range)) (k : string)
    (r : range) : result (gmap string (list range)) :=
  l ← dict_getitem d k; Ok (<[k := l ++ [r]]> d).

(** The entry [[s, e, country]] of a range. *)
Definition tag (country : string) (r : range) : entry := (r.1, r.2, country).

Section Pipeline.
(** Python library functions the pipeline calls: [str.strip], and
    [ipaddress.ip_network] followed by [int(net.network_address)] and
    [int(net.broadcast_address)], [None] when it raises. *)
Variable str_strip : string → string.
Variable ip_network : string → option range.

(** The dict of step 2: [geoname_id] to [country_iso_code]. A key is what
    [row['geoname_id']] gave; a [None] value is kept as the empty string,
    which is as false. *)
Variable country_map : gmap (option string) string.

(** [country_map.get(geoname_id, '')] for the row's
    [registered_country_geoname_id], or else its [geoname_id]. *)
Definition resolve_country (row : csv_row) : string :=
  let geoname_id :=
    py_or (row !! "registered_country_geoname_id") (row !! "geoname_id") in
  default "" (country_map !! geoname_id).

(** The body of the [try] block. *)
Definition classify_body (b : buckets) (country : string) (row : csv_row)
  : result buckets :=
  network ← dict_getitem row "network";
  r ← match ip_network (str_strip network) with
      | Some r => Ok r
      | None => Raise ValueError
      end;
  if bool_decide (country ∈ TIER1_COUNTRIES) then
    d ← dict_append (tier1_data b) country r;
    Ok {| tier1_data := d; tier2_data := tier2_data b;
          tier3_data := tier3_data b |}
  else if bool_decide (country ∈ TIER2_COUNTRIES) then
    d ← dict_append (tier2_data b) country r;
    Ok {| tier1_data := tier1_data b; tier2_data := d;
          tier3_data := tier3_data b |}
  else
    Ok {| tier1_data := tier1_data b; tier2_data := tier2_data b;
          tier3_data := tier3_data b ++ [r] |}.

(** One iteration of [for i, row in enumerate(reader)]. *)
Definition classify_row (b : buckets) (row : csv_row) : result buckets :=
  let country := resolve_country row in
  if truthy country
  then try_except (classify_body b country row) b
  else Ok b.

(** The loop of lines 156 to 176 over the rows that the reader yields. What
    [open] and the reader themselves do is in [classify_file] below. *)
Definition classify (rows : list csv_row) : result buckets :=
  for_each classify_row initial_buckets rows.

(** ** The assembly, steps 4 and 5 of [main] *)

(** One iteration of [for country in sorted(TIERn_COUNTRIES)]. *)
Definition emit_country (data : gmap string (list range)) (tier_level : Z)
    (all_entries : list entry) (country : string) : result (list entry) :=
  ranges ← dict_getitem data country;
  match ranges with
  | [] => Ok all_entries
  | _ :: _ =>
      Ok (all_entries ++ (tag country <$> tiered_merge_ranges ranges tier_level))
  end.

Definition emit_other (tier3 : list range) (all_entries : list entry)
  : list entry :=
  match tier3 with
  | [] => all_entries
  | _ :: _ =>
      all_entries ++ (tag OTHER_COUNTRY_CODE <$> tiered_merge_ranges tier3 3)
  end.

(** [all_entries.sort(key=lambda x: x[0])] *)
Definition entry_leb (x y : entry) : bool := entry_start x <=? entry_start y.

Definition assemble (b : buckets) : result (list entry) :=
  e1 ← for_each (emit_country (tier1_data b) 1) []
          (sorted_codes TIER1_COUNTRIES);
  e2 ← for_each (emit_country (tier2_data b) 2) e1
          (sorted_codes TIER2_COUNTRIES);
  Ok (sort_by entry_leb (emit_other (tier3_data b) e2)).

(** Steps 3 to 5 for a blocks file that is read to its end with the rows
    [rows]: the value of [all_entries] that is written out, or the exception
    that ends the run. *)
Definition build_table (rows : list csv_row) : result (list entry) :=
  b ← classify rows; assemble b.
End Pipeline.

(** ** Reading the blocks file, lines 154 to 156

    [open(blocks_file)] and the iteration of [csv.DictReader] are outside the
    [try] of line 165: an exception of theirs reaches the handler of [main],
    which exits with status 1. *)

(** What reading the blocks file gives: the rows that the reader yields, and
    whether it then raises (a line that does not decode) instead of reaching
    the end. [None] for the file stands for [open] raising. *)
Record blocks_file : Type := BlocksFile {
  blocks_rows : list csv_row;
  blocks_raises : bool
}.

(** Reading the blocks file raises. *)
Definition blocks_fails (f : option blocks_file) : Prop :=
  match f with
  | None => True
  | Some f => blocks_raises f = true
  end.

Section Run.
Variable str_strip : string → string.
Variable ip_network : string → option range.
Variable country_map : gmap (option string) string.

(** Step 3 on the file: the rows that the reader yields are classified one
    after the other; [None] when an exception reaches the handler of
    [main]. *)
Definition classify_file (f : option blocks_file) : option buckets :=
  match f with
  | None => None
  | Some f =>
      match classify str_strip ip_network country_map (blocks_rows f) with
      | Ok b => if blocks_raises f then None else Some b
      | Raise _ => None
      end
  end.

(** Steps 3 to 5 on the file: the table that is written out, [None] when
    the run ends in the handler of [main]. *)
Definition run_table (f : option blocks_file) : option (list entry) :=
  match classify_file f with
  | Some b =>
      match assemble b with
      | Ok table => Some table
      | Raise _ => None
      end
  | None => None
  end.
End Run.

(** ** The records a run keeps

    What lines 160 to 167 keep of a row: the resolved code, when it is not
    empty, with the range of the network, when the column is there and
    parses; nothing otherwise. *)
Section Records.
Variable str_strip : string → string.
Variable ip_network : string → option range.
Variable country_map : gmap (option string) string.

Definition kept_record (row : csv_row) : option (string * range) :=
  let country := resolve_country country_map row in
  if truthy country then
    network ← row !! "network";
    r ← ip_network (str_strip network);
    Some (country, r)
  else None.

Definition kept_records (rows : list csv_row) : list (string * range) :=
  omap kept_record rows.
End Records.

(** Address [y] lies in the range of a record that the run keeps of [rows]
    and emits under [code]. *)
Definition kept_under (str_strip : string → string)
    (ip_network : string → option range)
    (country_map : gmap (option string) string)
    (rows : list csv_row) (code : string) (y : Z) : Prop :=
  ∃ row c r,
    row ∈ rows ∧
    kept_record str_strip ip_network country_map row = Some (c, r) ∧
    (if decide (c ∈ TIER1_COUNTRIES ∨ c ∈ TIER2_COUNTRIES) then c
     else OTHER_COUNTRY_CODE) = code ∧
    r.1 ≤ y ≤ r.2.

(** The ranges of the records of code [c], in the order of the records. *)
Definition ranges_of (c : string) (recs : list (string * range)) : list range :=
  (filter (λ p, p.1 = c) recs).*2.

(** The ranges of the records whose code is in neither tier set. *)
Definition other_ranges (recs : list (string * range)) : list range :=
  (filter (λ p, (p.1 ∉ TIER1_COUNTRIES) ∧ (p.1 ∉ TIER2_COUNTRIES)) recs).*2.

(** The buckets hold the ranges of the records [recs], each list in the
    order of the records. *)
Definition buckets_of (recs : list (string * range)) (b : buckets) : Prop :=
  (∀ c, tier1_data b !! c
        = if decide (c ∈ TIER1_COUNTRIES) then Some (ranges_of c recs) else None) ∧
  (∀ c, tier2_data b !! c
        = if decide (c ∈ TIER2_COUNTRIES) then Some (ranges_of c recs) else None) ∧
  tier3_data b = other_ranges recs.

(** The list that is merged for the entries of code [code]: the ranges of
    the records of that code for a tier-1 or tier-2 code, the ranges of the
    records of all other codes for the catch-all code. *)
Definition source_ranges (code : string) (recs : list (string * range))
  : list range :=
  if decide (code ∈ TIER1_COUNTRIES ∨ code ∈ TIER2_COUNTRIES)
  then ranges_of code recs
  else other_ranges recs.

(** The codes that a table can hold. *)
Definition table_code (code : string) : Prop :=
  code ∈ TIER1_COUNTRIES ∨ code ∈ TIER2_COUNTRIES ∨ code = OTHER_COUNTRY_CODE.

(** The code under which the range of a record of code [c] is emitted. *)
Definition emitted_code_of (c : string) : string :=
  if decide (c ∈ TIER1_COUNTRIES ∨ c ∈ TIER2_COUNTRIES) then c
  else OTHER_COUNTRY_CODE.

(** The tier level with which the ranges of code [c] are merged. *)
Definition tier_of (c : string) : Z :=
  if decide (c ∈ TIER1_COUNTRIES) then 1
  else if decide (c ∈ TIER2_COUNTRIES) then 2
  else 3.

(** Address [x] lies in the range of entry [e]. *)
Definition in_entry (x : Z) (e : entry) : Prop :=
  entry_start e ≤ x ≤ entry_end e.

(** ** The locations mapping, step 2 of [main] *)

(** A row of the locations file as [csv.DictReader] gives it: every column
    of the header, with its field, or [None] where the line is short. *)
Abbreviation loc_row := (gmap string (option string)).

(** What reading a file gives: [None] when [open] raises; otherwise the rows
    that the reader yields, and whether it then raises (a line that does not
    decode) instead of reaching the end. *)
Record csv_file : Type := CsvFile {
  file_rows : list loc_row;
  file_raises : bool
}.

(** [country_map[row['geoname_id']] = row['country_iso_code']]: the right-hand
    side is evaluated first. The value [None] of a short line is kept as the
    empty string. *)
Definition load_row (country_map : gmap (option string) string)
    (row : loc_row) : result (gmap (option string) string) :=
  v ← dict_getitem row "country_iso_code";
  k ← dict_getitem row "geoname_id";
  Ok (<[k := default "" v]> country_map).

(** [for row in reader: ...] on the dict [country_map], which is updated in
    place: the dict as the loop leaves it, and whether the loop raised. *)
Fixpoint load_rows (country_map : gmap (option string) string)
    (rows : list loc_row) : gmap (option string) string * bool :=
  match rows with
  | [] => (country_map, false)
  | row :: rest =>
      match load_row country_map row with
      | Ok country_map' => load_rows country_map' rest
      | Raise _ => (country_map, true)
      end
  end.

(** [with open(...) as f: reader = csv.DictReader(f); for row in reader: ...] *)
Definition load_file (country_map : gmap (option string) string)
    (f : option csv_file) : gmap (option string) string * bool :=
  match f with
  | None => (country_map, true)
  | Some f =>
      let '(country_map', raised) := load_rows country_map (file_rows f) in
      (country_map', raised || file_raises f)
  end.

(** Step 2: the zh-CN file, and on any exception the en file, into the same
    dict. [None] when the en file raises too: the exception reaches the
    handler of [main], which exits with status 1. *)
Definition load_country_map (zh_file en_file : option csv_file)
  : option (gmap (option string) string) :=
  let '(country_map, raised) := load_file ∅ zh_file in
  if raised then
    let '(country_map', raised') := load_file country_map en_file in
    if raised' then None else Some country_map'
  else Some country_map.

(** The key and value that a row with both columns stores. *)
Definition loc_pair (row : loc_row) : option (option string * string) :=
  v ← row !! "country_iso_code";
  k ← row !! "geoname_id";
  Some (k, default "" v).

(** The codes that the rows give for the key [k], in the order of the
    rows. *)
Definition codes_for (k : option string) (rows : list loc_row) : list string :=
  omap (λ row, p ← loc_pair row; if decide (p.1 = k) then Some p.2 else None)
       rows.

(** Reading the file raises: at [open], at a row that lacks a column, or in
    the reader. *)
Definition file_fails (f : option csv_file) : Prop :=
  match f with
  | None => True
  | Some f =>
      file_raises f = true ∨ Exists (λ row, loc_pair row = None) (file_rows f)
  end.

(** What a row with both columns does to the dict; a row without is not
    stored. *)
Definition store_row (m : gmap (option string) string) (row : loc_row)
  : gmap (option string) string :=
  match loc_pair row with
  | Some (k, v) => <[k := v]> m
  | None => m
  end.

(** The rows that are stored before reading the file raises or ends. *)
Fixpoint stored_rows (rows : list loc_row) : list loc_row :=
  match rows with
  | [] => []
  | row :: rest =>
      match loc_pair row with
      | Some _ => row :: stored_rows rest
      | None => []
      end
  end.

Definition stored (f : option csv_file) : list loc_row :=
  match f with
  | None => []
  | Some f => stored_rows (file_rows f)
  end.

(** ** The files of the archive, [download_and_extract] *)

Definition TEMP_DIR : string := "temp_tiered_data".

(** [os.path.join(a, b)] for a directory [a] that is not empty and does not
    end in a slash, and a relative [b], as all the calls here are. *)
Definition path_join (a b : string) : string := a +:+ "/" +:+ b.

(** The loop over [os.listdir(TEMP_DIR)]: the two paths for the first item
    with the prefix, [None] when the loop ends without a [return]. *)
Fixpoint find_csv_files (items : list string) : option (string * string) :=
  match items with
  | [] => None
  | item :: rest =>
      if String.prefix "GeoLite2-Country-CSV_" item then
        let csv_dir := path_join TEMP_DIR item in
        Some (path_join csv_dir "GeoLite2-Country-Blocks-IPv4.csv",
              path_join csv_dir "GeoLite2-Country-Locations-zh-CN.csv")
      else find_csv_files rest
  end.

(** [download_and_extract], given what the download, the unpacking and
    [os.listdir] give: [None] when one of them raises, the listing
    otherwise. The result is [None] when the function raises, [Some None]
    when it returns [None], and [Some (Some paths)] when it returns the two
    paths. *)
Definition download_and_extract (fetched : option (list string))
  : option (option (string * string)) :=
  match fetched with
  | None => None
  | Some items => Some (find_csv_files items)
  end.

(** [blocks_file, locations_file = download_and_extract()] in [main]:
    unpacking [None] raises, and the handler of [main] exits. *)
Definition main_paths (fetched : option (list string))
  : option (string * string) :=
  match download_and_extract fetched with
  | Some (Some paths) => Some paths
  | Some None => None
  | None => None
  end.

(** ** A concrete reading of the library functions

    The dotted-quad/prefix form of [ipaddress.ip_network] (four decimal
    octets without leading zeros, a prefix length up to 32, no host bit set)
    and [str.strip] for ASCII white space; used to run the pipeline on
    concrete rows. The other forms that the library reads (no prefix, a net
    or host mask after the slash, IPv6) are not read here, and white space
    outside ASCII (U+0085, U+00A0 and the like) is not stripped; the
    properties of the pipeline are proved for every [str_strip] and
    [ip_network]. *)
Module Py.
Definition digit (a : Ascii.ascii) : option Z :=
  let n := Z.of_N (Ascii.N_of_ascii a) in
  if (48 <=? n) && (n <=? 57) then Some (n - 48) else None.

Fixpoint decimal_from (acc : Z) (s : string) : option Z :=
  match s with
  | EmptyString => Some acc
  | String a s' => d ← digit a; decimal_from (10 * acc + d) s'
  end.

Definition decimal (s : string) : option Z :=
  match s with EmptyString => None | String _ _ => decimal_from 0 s end.

Fixpoint split (sep : Ascii.ascii) (s : string) : list string :=
  match s with
  | EmptyString => [EmptyString]
  | String a s' =>
      if Ascii.eqb a sep then EmptyString :: split sep s'
      else match split sep s' with
           | [] => [String a EmptyString]
           | w :: ws => String a w :: ws
           end
  end.

Definition octet (s : string) : option Z :=
  match s with
  | String "0"%char (String _ _) => None
  | _ => n ← decimal s;
         if (n <=? 255) && (Nat.leb (String.length s) 3) then Some n else None
  end.

Definition address (s : string) : option Z :=
  match split "."%char s with
  | [a; b; c; d] =>
      a ← octet a; b ← octet b; c ← octet c; d ← octet d;
      Some (((a * 256 + b) * 256 + c) * 256 + d)
  | _ => None
  end.

Definition ip_network (s : string) : option range :=
  match split "/"%char s with
  | [addr; len] =>
      a ← address addr; p ← decimal len;
      if p <=? 32 then
        let size := 2 ^ (32 - p) in
        if a mod size =? 0 then Some (a, a + size - 1) else None
      else None
  | _ => None
  end.

(** The ASCII characters that [str.isspace] accepts: tab to carriage
    return, the four separators U+001C to U+001F, and the space. *)
Definition is_space (a : Ascii.ascii) : bool :=
  let n := Z.of_N (Ascii.N_of_ascii a) in
  ((9 <=? n) && (n <=? 13)) || ((28 <=? n) && (n <=? 32)).

Fixpoint lstrip (s : string) : string :=
  match s with
  | String a s' => if is_space a then lstrip s' else s
  | EmptyString => EmptyString
  end.

Definition strip (s : string) : string :=
  String.rev (lstrip (String.rev (lstrip s))).
End Py.

(** ** Shape of the final table *)

Definition entry_range (x : entry) : range := x.1.

(** Any two entries at different positions share no address. *)
Definition pairwise_disjoint (table : list entry) : Prop :=
  ∀ (i j : nat) x y, i ≠ j → table !! i = Some x → table !! j = Some y →
    disjoint_ranges (entry_range x) (entry_range y).

(** Any two entries at different positions that carry the same code share
    no address. *)
Definition same_code_disjoint (table : list entry) : Prop :=
  ∀ (i j : nat) x y, i ≠ j → table !! i = Some x → table !! j = Some y →
    entry_code x = entry_code y →
    disjoint_ranges (entry_range x) (entry_range y).

(** Each entry starts no later than the next one. *)
Definition sorted_by_start (table : list entry) : Prop :=
  ∀ (i : nat) x y, table !! i = Some x → table !! S i = Some y →
    entry_start x ≤ entry_start y.

(** What the loop over the codes of one tier appends to [all_entries]: the
    tagged merger output of each code in turn (nothing for an empty list). *)
Definition emitted (data : gmap string (list range)) (tier_level : Z)
    (codes : list string) : list entry :=
  flat_map
    (λ c, tag c <$> tiered_merge_ranges (default [] (data !! c)) tier_level)
    codes.

(** The value of [all_entries] before the sort of step 5. *)
Definition all_entries (b : buckets) : list entry :=
  emitted (tier1_data b) 1 (sorted_codes TIER1_COUNTRIES)
  ++ emitted (tier2_data b) 2 (sorted_codes TIER2_COUNTRIES)
  ++ (tag OTHER_COUNTRY_CODE <$> tiered_merge_ranges (tier3_data b) 3).

Definition code_disjoint (x y : entry) : Prop :=
  entry_code x = entry_code y →
  disjoint_ranges (entry_range x) (entry_range y).

(** ** What the classifier does with a record it keeps *)

(** The list under [country] got [r] appended; no other key changed. *)
Definition appended_at (country : string) (r : range)
    (d d' : gmap string (list range)) : Prop :=
  ∃ l, d !! country = Some l ∧ d' = <[country := l ++ [r]]> d.

(** [r] went to the tier-1 list of [country] and nowhere else. *)
Definition to_tier1 (country : string) (r : range) (b b' : buckets) : Prop :=
  appended_at country r (tier1_data b) (tier1_data b') ∧
  tier2_data b' = tier2_data b ∧ tier3_data b' = tier3_data b.

(** [r] went to the tier-2 list of [country] and nowhere else. *)
Definition to_tier2 (country : string) (r : range) (b b' : buckets) : Prop :=
  tier1_data b' = tier1_data b ∧
  appended_at country r (tier2_data b) (tier2_data b') ∧
  tier3_data b' = tier3_data b.

(** [r] went to the tier-3 list, without a code, and nowhere else. *)
Definition to_tier3 (r : range) (b b' : buckets) : Prop :=
  tier1_data b' = tier1_data b ∧ tier2_data b' = tier2_data b ∧
  tier3_data b' = tier3_data b ++ [r].

(** The number of ranges held in all buckets. *)
Definition held (b : buckets) : nat :=
  (map_fold (λ _ l n, length l + n) 0 (tier1_data b)
   + map_fold (λ _ l n, length l + n) 0 (tier2_data b)
   + length (tier3_data b))%nat.

(** The buckets keep the keys they were created with. *)
Definition keys_ok (b : buckets) : Prop :=
  dom (tier1_data b) = TIER1_COUNTRIES ∧ dom (tier2_data b) = TIER2_COUNTRIES.

(** ** Sample input *)
Module Demo.
(** Three lines of a locations file: China, Brazil, and the continent
    Europe, which has no country code. *)
Definition locations : gmap (option string) string :=
  {[ Some "1814991" := "CN"; Some "3469034" := "BR"; Some "6255148" := "" ]}.

Definition block (network geoname_id : string) : csv_row :=
  {[ "network" := network; "geoname_id" := geoname_id;
     "registered_country_geoname_id" := geoname_id ]}.

(** Two blocks of a tier-3 country on both sides of a tier-1 block. *)
Definition rows : list csv_row :=
  [ block "1.0.0.0/24" "3469034";
    block "1.0.1.0/24" "1814991";
    block "1.0.2.0/24" "3469034" ].

Definition build : list csv_row → result (list entry) :=
  build_table Py.strip Py.ip_network locations.

(** A blocks file whose second line does not decode: the reader yields the
    first row and then raises. *)
Definition undecodable : option blocks_file :=
  Some (BlocksFile [block "1.0.1.0/24" "1814991"] true).
End Demo.

(** * Properties *)

(** ** Sorting *)
Section SortingFacts.
Context {A : Type} (leb : A → A → bool).
Abbreviation R := (le_of leb).
Hypothesis leb_total : ∀ x y, leb x y = true ∨ leb y x = true.

Lemma insert_by_perm x l : insert_by leb x l ≡ₚ x :: l.
Proof.
  induction l as [|y l IH]; simpl; [done|].
  destruct (leb x y); [done|]. rewrite IH. apply Permutation_swap.
Qed.

Lemma sort_by_perm l : sort_by leb l ≡ₚ l.
Proof.
  induction l as [|x l IH]; simpl; [done|].
  by rewrite insert_by_perm, IH.
Qed.

Lemma sort_by_length l : length (sort_by leb l) = length l.
Proof. apply Permutation_length, sort_by_perm. Qed.

Lemma insert_by_hdrel a x l :
  R a x → HdRel R a l → HdRel R a (insert_by leb x l).
Proof.
  intros Hax Hl. destruct l as [|y l]; simpl; [by constructor|].
  destruct (leb x y); constructor; [done|]. by inversion Hl.
Qed.

Lemma insert_by_sorted x l : Sorted R l → Sorted R (insert_by leb x l).
Proof.
  induction 1 as [|y l Hl IH Hy]; simpl.
  - repeat constructor.
  - destruct (leb x y) eqn:Hxy.
    + constructor; [by constructor|by constructor].
    + constructor; [done|]. apply insert_by_hdrel; [|done].
      destruct (leb_total x y) as [Heq|Heq]; [congruence|done].
Qed.

Lemma sort_by_sorted l : Sorted R (sort_by leb l).
Proof.
  induction l as [|x l IH]; simpl; [constructor|].
  by apply insert_by_sorted.
Qed.

(** A list that is already in order is left as it is. *)
Lemma sort_by_id l : Sorted R l → sort_by leb l = l.
Proof.
  induction 1 as [|x l Hl IH Hx]; simpl; [done|].
  rewrite IH. destruct Hx as [|y l' Hxy]; simpl; [done|].
  unfold le_of in Hxy. by rewrite Hxy.
Qed.
End SortingFacts.

Lemma Sorted_weaken {A} (R1 R2 : relation A) l :
  (∀ x y, R1 x y → R2 x y) → Sorted R1 l → Sorted R2 l.
Proof.
  intros HR. induction 1 as [|x l Hl IH Hx]; constructor; [done|].
  destruct Hx; constructor; auto.
Qed.

(** ** The order on ranges *)

Lemma range_leb_le a b : range_leb a b = true ↔ range_le a b.
Proof.
  unfold range_leb, range_le.
  rewrite orb_true_iff, andb_true_iff, Z.ltb_lt, Z.eqb_eq, Z.leb_le. done.
Qed.

Lemma range_leb_total a b : range_leb a b = true ∨ range_leb b a = true.
Proof. rewrite !range_leb_le. unfold range_le. lia. Qed.

#[local] Instance range_le_trans : Transitive range_le.
Proof. intros a b c. unfold range_le. lia. Qed.

Lemma range_le_strongly l : Sorted range_le l → StronglySorted range_le l.
Proof. apply Sorted_StronglySorted, range_le_trans. Qed.

Lemma sort_ranges_perm ranges : sort_ranges ranges ≡ₚ ranges.
Proof. apply sort_by_perm. Qed.

Lemma sort_ranges_sorted ranges : Sorted range_le (sort_ranges ranges).
Proof.
  eapply Sorted_weaken; [|apply (sort_by_sorted range_leb range_leb_total)].
  intros a b. simpl. apply range_leb_le.
Qed.

Lemma sort_ranges_id l : Sorted range_le l → sort_ranges l = l.
Proof.
  intros Hl. apply sort_by_id. eapply Sorted_weaken; [|exact Hl].
  intros a b. apply range_leb_le.
Qed.

(** The order on ranges is a total order, so the sorted list is the only
    sorted rearrangement of the input: every correct sort returns it. *)
Lemma sort_ranges_unique ranges l :
  Sorted range_le l → l ≡ₚ ranges → sort_ranges ranges = l.
Proof.
  intros Hl Hp.
  assert (AntiSymm (=) range_le) as Hanti.
  { intros [a1 a2] [b1 b2]. unfold range_le. simpl. intros ? ?.
    f_equal; lia. }
  apply (Sorted_unique range_le); [apply sort_ranges_sorted|done|].
  by rewrite sort_ranges_perm.
Qed.

Lemma sort_ranges_nil_inv ranges : sort_ranges ranges = [] → ranges = [].
Proof.
  intros Hs. apply Permutation_nil_r. rewrite <- Hs.
  symmetry. apply sort_ranges_perm.
Qed.

(** ** The loop of the source and the sweep of the specification *)

Lemma foldl_sweep_step tier_level l merged cs ce :
  (let '(merged', cs', ce') := foldl (sweep_step tier_level) (merged, cs, ce) l
   in merged' ++ [(cs', ce')])
  = merged ++ sweep (merge_threshold tier_level) cs ce l.
Proof.
  revert merged cs ce. induction l as [|[s e] l IH]; intros merged cs ce.
  - done.
  - cbn [foldl sweep sweep_step].
    destruct (s - ce <=? merge_threshold tier_level).
    + rewrite IH. do 2 f_equal.
      destruct (e >? ce) eqn:He; [apply Z.gtb_gt in He|rewrite Z.gtb_ltb in He;
        apply Z.ltb_ge in He]; lia.
    + rewrite IH, <- app_assoc. done.
Qed.

Lemma tiered_merge_ranges_spec ranges tier_level :
  tiered_merge_ranges ranges tier_level
  = merge_spec (merge_threshold tier_level) ranges.
Proof.
  unfold tiered_merge_ranges, merge_spec. destruct ranges as [|r ranges].
  - done.
  - destruct (sort_ranges (r :: ranges)) as [|[cs ce] rest]; [done|].
    apply (foldl_sweep_step tier_level rest [] cs ce).
Qed.

(** The example of the specification: a gap of 5 is closed, a gap of 970 is
    not. *)
Example merge_spec_example :
  merge_spec 5 [(10, 20); (25, 30); (1000, 1005)] = [(10, 30); (1000, 1005)].
Proof. reflexivity. Qed.

(** The merger on a non-empty list: the sweep over the sorted list. *)
Lemma tiered_merge_ranges_sweep ranges tier_level :
  ranges ≠ [] →
  ∃ cs ce rest,
    sort_ranges ranges = (cs, ce) :: rest ∧
    tiered_merge_ranges ranges tier_level
    = sweep (merge_threshold tier_level) cs ce rest.
Proof.
  intros Hne. rewrite tiered_merge_ranges_spec. unfold merge_spec.
  destruct (sort_ranges ranges) as [|[cs ce] rest] eqn:Hs.
  - by apply sort_ranges_nil_inv in Hs.
  - by exists cs, ce, rest.
Qed.

Lemma merge_threshold_pos tier_level : 0 < merge_threshold tier_level.
Proof. unfold merge_threshold. repeat case_match; lia. Qed.

(** ** Shape of the sweep's output *)

Lemma sweep_head t cs ce l :
  ∃ ce' out, sweep t cs ce l = (cs, ce') :: out ∧ ce ≤ ce'.
Proof.
  revert cs ce. induction l as [|[s e] l IH]; intros cs ce; simpl.
  - exists ce, []. split; [done|lia].
  - destruct (s - ce <=? t).
    + destruct (IH cs (Z.max ce e)) as (ce' & out & -> & Hle).
      exists ce', out. split; [done|lia].
    + exists ce, (sweep t s e l). split; [done|lia].
Qed.

Lemma sweep_length t cs ce l :
  (1 ≤ length (sweep t cs ce l) ≤ S (length l))%nat.
Proof.
  revert cs ce. induction l as [|[s e] l IH]; intros cs ce; simpl.
  - lia.
  - destruct (s - ce <=? t); [specialize (IH cs (Z.max ce e))
                             |specialize (IH s e)]; simpl; lia.
Qed.

(** Consecutive output intervals are further apart than the threshold. *)
Lemma sweep_gapped t cs ce l : Sorted (gapped t) (sweep t cs ce l).
Proof.
  revert cs ce. induction l as [|[s e] l IH]; intros cs ce; simpl.
  - repeat constructor.
  - destruct (s - ce <=? t) eqn:Hgap; [apply IH|].
    apply Z.leb_gt in Hgap. constructor; [apply IH|].
    destruct (sweep_head t s e l) as (ce' & out & -> & _).
    constructor. unfold gapped. simpl. lia.
Qed.

(** On a list sorted by the pair, under the open interval, the output is
    sorted by the pair. *)
Lemma sweep_sorted t cs ce l :
  StronglySorted range_le l → Forall (range_le (cs, ce)) l →
  Sorted range_le (sweep t cs ce l).
Proof.
  revert cs ce. induction l as [|[s e] l IH]; intros cs ce Hl Hc; simpl.
  - repeat constructor.
  - apply StronglySorted_cons in Hl as [Hse Hl].
    apply Forall_cons in Hc as [Hc1 Hc].
    destruct (s - ce <=? t).
    + apply IH; [done|]. rewrite Forall_forall in *.
      intros r Hr. specialize (Hse r Hr). specialize (Hc r Hr).
      unfold range_le in *. simpl in *. lia.
    + constructor; [by apply IH|].
      destruct (sweep_head t s e l) as (ce' & out & -> & Hle).
      constructor. unfold range_le in *. simpl in *. lia.
Qed.

Lemma sweep_well_formed t cs ce l :
  cs ≤ ce → Forall well_formed l → Forall well_formed (sweep t cs ce l).
Proof.
  revert cs ce. induction l as [|[s e] l IH]; intros cs ce Hc Hl; simpl.
  - by repeat constructor.
  - apply Forall_cons in Hl as [Hse Hl]. unfold well_formed in Hse.
    simpl in Hse. destruct (s - ce <=? t).
    + apply IH; [lia|done].
    + constructor; [done|]. by apply IH.
Qed.

(** A sweep over a list that is already gapped changes nothing. *)
Lemma sweep_gapped_id t cs ce l :
  Sorted (gapped t) ((cs, ce) :: l) → sweep t cs ce l = (cs, ce) :: l.
Proof.
  revert cs ce. induction l as [|[s e] l IH]; intros cs ce Hl; simpl; [done|].
  apply Sorted_inv in Hl as [Hl Hhd]. apply HdRel_inv in Hhd.
  unfold gapped in Hhd. simpl in Hhd.
  destruct (s - ce <=? t) eqn:Hgap; [apply Z.leb_le in Hgap; lia|].
  by rewrite IH.
Qed.

(** Each interval of a sorted, gapped list ends before every later one
    starts. *)
Lemma gapped_separated t l :
  0 ≤ t → Sorted (gapped t) l → Sorted range_le l →
  StronglySorted (λ a b, a.2 < b.1) l.
Proof.
  intros Ht Hg Hs. apply range_le_strongly in Hs.
  induction l as [|a l IH]; [constructor|].
  apply Sorted_inv in Hg as [Hg Hhd].
  apply StronglySorted_cons in Hs as [Ha Hs].
  constructor; [by apply IH|].
  destruct l as [|n l]; [done|].
  apply HdRel_inv in Hhd. unfold gapped in Hhd.
  apply StronglySorted_cons in Hs as [Hn _].
  apply Forall_cons in Ha as [_ Ha].
  constructor; [lia|].
  rewrite Forall_forall in *. intros b Hb.
  specialize (Hn b Hb). unfold range_le in Hn. lia.
Qed.

Lemma gapped_strict_starts t l :
  0 ≤ t → Sorted (gapped t) l → Forall well_formed l →
  Sorted (λ a b, a.1 < b.1) l.
Proof.
  intros Ht Hg Hwf. induction Hg as [|a l Hg IH Hhd]; [constructor|].
  apply Forall_cons in Hwf as [Ha Hwf]. constructor; [by apply IH|].
  destruct Hhd as [|b l Hab]; constructor.
  unfold gapped in Hab. unfold well_formed in Ha. lia.
Qed.

(** What the sort leaves below the first element. *)
Lemma sort_ranges_cons ranges cs ce rest :
  sort_ranges ranges = (cs, ce) :: rest →
  StronglySorted range_le rest ∧ Forall (range_le (cs, ce)) rest.
Proof.
  intros Hs. pose proof (sort_ranges_sorted ranges) as Hsorted.
  rewrite Hs in Hsorted. apply range_le_strongly in Hsorted.
  apply StronglySorted_cons in Hsorted. tauto.
Qed.

Lemma tiered_merge_ranges_sorted ranges tier_level :
  Sorted range_le (tiered_merge_ranges ranges tier_level).
Proof.
  destruct ranges as [|r ranges]; [constructor|].
  destruct (tiered_merge_ranges_sweep (r :: ranges) tier_level)
    as (cs & ce & rest & Hs & ->); [done|].
  apply sort_ranges_cons in Hs as [? ?]. by apply sweep_sorted.
Qed.

Lemma tiered_merge_ranges_gapped ranges tier_level :
  Sorted (gapped (merge_threshold tier_level))
    (tiered_merge_ranges ranges tier_level).
Proof.
  destruct ranges as [|r ranges]; [constructor|].
  destruct (tiered_merge_ranges_sweep (r :: ranges) tier_level)
    as (cs & ce & rest & Hs & ->); [done|].
  apply sweep_gapped.
Qed.

Lemma tiered_merge_ranges_separated ranges tier_level :
  StronglySorted (λ a b, a.2 < b.1) (tiered_merge_ranges ranges tier_level).
Proof.
  apply (gapped_separated (merge_threshold tier_level)).
  - pose proof (merge_threshold_pos tier_level). lia.
  - apply tiered_merge_ranges_gapped.
  - apply tiered_merge_ranges_sorted.
Qed.

Lemma tiered_merge_ranges_length ranges tier_level :
  (length (tiered_merge_ranges ranges tier_level) ≤ length ranges)%nat.
Proof.
  destruct ranges as [|r ranges]; [done|].
  destruct (tiered_merge_ranges_sweep (r :: ranges) tier_level)
    as (cs & ce & rest & Hs & ->); [done|].
  pose proof (sweep_length (merge_threshold tier_level) cs ce rest) as Hlen.
  apply (f_equal length) in Hs.
  unfold sort_ranges in Hs. rewrite sort_by_length in Hs.
  rewrite Hs. simpl. lia.
Qed.

Lemma tiered_merge_ranges_nonempty ranges tier_level :
  ranges ≠ [] → tiered_merge_ranges ranges tier_level ≠ [].
Proof.
  intros Hne.
  destruct (tiered_merge_ranges_sweep ranges tier_level)
    as (cs & ce & rest & _ & ->); [done|].
  by destruct (sweep_head (merge_threshold tier_level) cs ce rest)
    as (? & ? & -> & _).
Qed.

(** ** The count of output intervals against the threshold *)

(** With a threshold at least as large and an open end at least as far,
    the sweep breaks no more often. *)
Lemma sweep_length_mono t1 t2 l : ∀ cs1 ce1 cs2 ce2,
  t1 ≤ t2 → ce1 ≤ ce2 →
  (length (sweep t2 cs2 ce2 l) ≤ length (sweep t1 cs1 ce1 l))%nat.
Proof.
  induction l as [|[s e] l IH]; intros cs1 ce1 cs2 ce2 Ht Hce; simpl.
  - done.
  - destruct (s - ce1 <=? t1) eqn:H1, (s - ce2 <=? t2) eqn:H2;
      try apply Z.leb_le in H1; try apply Z.leb_le in H2;
      try apply Z.leb_gt in H1; try apply Z.leb_gt in H2; simpl.
    + apply IH; lia.
    + lia.
    + etrans; [apply (IH s e cs2 (Z.max ce2 e)); lia|]. lia.
    + apply le_n_S, IH; lia.
Qed.

(** ** Coverage *)

(** No address of the open interval or of the remaining ranges is lost. *)
Lemma sweep_covers t x l : ∀ cs ce,
  Forall (λ r, cs ≤ r.1) l → StronglySorted range_le l →
  covered x ((cs, ce) :: l) → covered x (sweep t cs ce l).
Proof.
  induction l as [|[s e] l IH]; intros cs ce Hcs Hl Hx; simpl; [done|].
  apply Forall_cons in Hcs as [Hs Hcs]. simpl in Hs.
  apply StronglySorted_cons in Hl as [Hse Hl].
  destruct (s - ce <=? t).
  - apply IH; [done..|].
    destruct Hx as (r & Hr & Hin). unfold in_range in Hin.
    apply elem_of_cons in Hr as [->|Hr].
    { exists (cs, Z.max ce e). split; [left|unfold in_range; simpl in *; lia]. }
    apply elem_of_cons in Hr as [->|Hr].
    { exists (cs, Z.max ce e). split; [left|unfold in_range; simpl in *; lia]. }
    exists r. split; [by right|done].
  - destruct Hx as (r & Hr & Hin).
    apply elem_of_cons in Hr as [->|Hr].
    { exists (cs, ce). split; [left|done]. }
    assert (covered x (sweep t s e l)) as (r' & Hr' & Hin').
    { apply IH; [|done|by exists r].
      eapply Forall_impl; [exact Hse|]. intros r0. unfold range_le. simpl. lia. }
    exists r'. split; [by right|done].
Qed.

(** With a threshold of at most 1 only touching or overlapping ranges are
    joined, and no address is added. *)
Lemma sweep_covered_by t x l : ∀ cs ce,
  t ≤ 1 → covered x (sweep t cs ce l) → covered x ((cs, ce) :: l).
Proof.
  induction l as [|[s e] l IH]; intros cs ce Ht Hx; simpl in Hx; [done|].
  destruct (s - ce <=? t) eqn:Hgap.
  - apply Z.leb_le in Hgap. apply IH in Hx as (r & Hr & Hin); [|done].
    apply elem_of_cons in Hr as [->|Hr].
    + unfold in_range in Hin. simpl in Hin.
      destruct (decide (x ≤ ce)).
      * exists (cs, ce). split; [left|unfold in_range; simpl; lia].
      * exists (s, e). split; [right; left|unfold in_range; simpl; lia].
    + exists r. split; [by do 2 right|done].
  - destruct Hx as (r & Hr & Hin).
    apply elem_of_cons in Hr as [->|Hr].
    + exists (cs, ce). split; [left|done].
    + destruct (IH s e Ht) as (r' & Hr' & Hin'); [by exists r|].
      exists r'. split; [by right|done].
Qed.

Lemma covered_perm x l1 l2 : l1 ≡ₚ l2 → covered x l1 → covered x l2.
Proof. intros Hp (r & Hr & Hin). exists r. by rewrite <- Hp. Qed.

Lemma tiered_merge_ranges_covers x ranges tier_level :
  covered x ranges → covered x (tiered_merge_ranges ranges tier_level).
Proof.
  intros Hx. destruct ranges as [|r0 ranges].
  { destruct Hx as (r & Hr & _). by apply elem_of_nil in Hr. }
  destruct (tiered_merge_ranges_sweep (r0 :: ranges) tier_level)
    as (cs & ce & rest & Hs & ->); [done|].
  pose proof (sort_ranges_cons _ _ _ _ Hs) as [Hrest Hhd].
  apply sweep_covers; [|done|].
  - eapply Forall_impl; [exact Hhd|]. intros r. unfold range_le. simpl. lia.
  - rewrite <- Hs. eapply covered_perm; [|exact Hx].
    symmetry. apply sort_ranges_perm.
Qed.

Lemma tiered_merge_ranges_covered_by x ranges :
  covered x (tiered_merge_ranges ranges 1) → covered x ranges.
Proof.
  intros Hx. destruct ranges as [|r0 ranges]; [done|].
  destruct (tiered_merge_ranges_sweep (r0 :: ranges) 1)
    as (cs & ce & rest & Hs & Heq); [done|].
  rewrite Heq in Hx. apply sweep_covered_by in Hx; [|done].
  rewrite <- Hs in Hx. eapply covered_perm; [|exact Hx]. apply sort_ranges_perm.
Qed.

(** In a sorted, gapped list every interval is further than [t] from each
    later one. *)
Lemma gapped_strongly t l :
  Sorted (gapped t) l → Sorted range_le l → StronglySorted (gapped t) l.
Proof.
  intros Hg Hs. apply range_le_strongly in Hs.
  induction l as [|a l IH]; [constructor|].
  apply Sorted_inv in Hg as [Hg Hhd].
  apply StronglySorted_cons in Hs as [Ha Hs].
  constructor; [by apply IH|].
  destruct l as [|n l]; [done|].
  apply HdRel_inv in Hhd. unfold gapped in Hhd.
  apply StronglySorted_cons in Hs as [Hn _].
  constructor; [done|].
  rewrite Forall_forall in *. intros b Hb.
  specialize (Hn b Hb). unfold range_le, gapped in *. lia.
Qed.

Lemma strongly_sorted_elems {A} (R : relation A) l x y :
  StronglySorted R l → x ∈ l → y ∈ l → x = y ∨ R x y ∨ R y x.
Proof.
  induction 1 as [|a l Hl IH Ha]; intros Hx Hy; [by apply elem_of_nil in Hx|].
  rewrite Forall_forall in Ha.
  apply elem_of_cons in Hx as [->|Hx], Hy as [->|Hy]; auto.
Qed.

(** Two different intervals of one merger output are further apart than the
    threshold. *)
Lemma tiered_merge_ranges_apart ranges tier_level r1 r2 :
  r1 ∈ tiered_merge_ranges ranges tier_level →
  r2 ∈ tiered_merge_ranges ranges tier_level →
  r1 = r2 ∨ gapped (merge_threshold tier_level) r1 r2
          ∨ gapped (merge_threshold tier_level) r2 r1.
Proof.
  apply strongly_sorted_elems, gapped_strongly;
    [apply tiered_merge_ranges_gapped|apply tiered_merge_ranges_sorted].
Qed.


(** * The merger's claims *)

(** C2. The merger sorts the list ascending by the [(start, end)] pair and
    makes one left-to-right sweep that absorbs [(s, e)] into the open
    interval exactly when [s - ce <= threshold], [ce] becoming [max ce e],
    and otherwise emits the open interval and opens [(s, e)], emitting the
    last open interval at the end; the threshold is 1 for tier 1, 262144 for
    tier 2 and 16777216 for tier 3. *)
Theorem merger_sorts_then_sweeps (ranges : list range) (tier_level : Z) :
  Sorted range_le (sort_ranges ranges) ∧
  sort_ranges ranges ≡ₚ ranges ∧
  tiered_merge_ranges ranges tier_level
  = merge_spec (merge_threshold tier_level) ranges ∧
  merge_threshold 1 = 1 ∧
  merge_threshold 2 = 262144 ∧
  merge_threshold 3 = 16777216.
Proof.
  split; [apply sort_ranges_sorted|].
  split; [apply sort_ranges_perm|].
  split; [apply tiered_merge_ranges_spec|done].
Qed.




(** C5. On the same input, a tier level with a larger threshold never gives
    more output intervals than one with a smaller threshold. *)
Theorem larger_threshold_fewer_intervals
    (ranges : list range) (tier_a tier_b : Z) :
  merge_threshold tier_a < merge_threshold tier_b →
  (length (tiered_merge_ranges ranges tier_b)
   ≤ length (tiered_merge_ranges ranges tier_a))%nat.
Proof.
  intros Hlt. rewrite !tiered_merge_ranges_spec. unfold merge_spec.
  destruct (sort_ranges ranges) as [|[cs ce] rest]; [done|].
  apply sweep_length_mono; lia.
Qed.

Lemma larger_threshold_fewer_intervals_witness :
  let ranges : list range := [(0, 0); (5, 5); (300000, 300010)] in
  merge_threshold 1 < merge_threshold 2 ∧
  (length (tiered_merge_ranges ranges 2)
   ≤ length (tiered_merge_ranges ranges 1))%nat.
Proof.
  intros ranges. split; [reflexivity|].
  apply (larger_threshold_fewer_intervals ranges 1 2). reflexivity.
Defined.

(** C6. Merging the merger's own output again with the same tier level
    returns it unchanged. *)
Theorem merger_idempotent (ranges : list range) (tier_level : Z) :
  tiered_merge_ranges (tiered_merge_ranges ranges tier_level) tier_level
  = tiered_merge_ranges ranges tier_level.
Proof.
  pose proof (tiered_merge_ranges_sorted ranges tier_level) as Hsorted.
  pose proof (tiered_merge_ranges_gapped ranges tier_level) as Hgapped.
  destruct (tiered_merge_ranges ranges tier_level) as [|[cs ce] out] eqn:Hout;
    [done|].
  rewrite tiered_merge_ranges_spec. unfold merge_spec.
  rewrite (sort_ranges_id _ Hsorted). by apply sweep_gapped_id.
Qed.

(** C9. The merger returns the empty list for the empty list and a
    one-element list unchanged; no code is in both tier sets, and the
    catch-all code [ZZ] is in neither. *)
Theorem merger_base_cases_and_tier_sets :
  (∀ tier_level, tiered_merge_ranges [] tier_level = []) ∧
  (∀ r tier_level, tiered_merge_ranges [r] tier_level = [r]) ∧
  (TIER1_COUNTRIES ∩ TIER2_COUNTRIES = ∅) ∧
  (OTHER_COUNTRY_CODE ∉ TIER1_COUNTRIES) ∧
  (OTHER_COUNTRY_CODE ∉ TIER2_COUNTRIES).
Proof.
  split; [done|]. split; [by intros [s e] tier_level|].
  split; [by vm_compute|]. split; by vm_compute.
Qed.

(** C10. For a non-empty input of ranges with [start <= end], the output has
    strictly increasing starts, consecutive intervals further apart than the
    tier's threshold (so every interval ends before each later one starts),
    only ranges with [start <= end], and at least one and at most as many
    intervals as the input. *)
Theorem merged_output_shape (ranges : list range) (tier_level : Z) :
  ranges ≠ [] → Forall well_formed ranges →
  Sorted (λ a b, a.1 < b.1) (tiered_merge_ranges ranges tier_level) ∧
  Sorted (gapped (merge_threshold tier_level))
    (tiered_merge_ranges ranges tier_level) ∧
  StronglySorted (λ a b, a.2 < b.1) (tiered_merge_ranges ranges tier_level) ∧
  Forall well_formed (tiered_merge_ranges ranges tier_level) ∧
  (1 ≤ length (tiered_merge_ranges ranges tier_level) ≤ length ranges)%nat.
Proof.
  intros Hne Hwf.
  pose proof (merge_threshold_pos tier_level) as Hpos.
  pose proof (tiered_merge_ranges_gapped ranges tier_level) as Hgapped.
  assert (Forall well_formed (tiered_merge_ranges ranges tier_level)) as Hout.
  { destruct (tiered_merge_ranges_sweep ranges tier_level Hne)
      as (cs & ce & rest & Hs & ->).
    assert (Forall well_formed ((cs, ce) :: rest)) as Hsorted_wf.
    { rewrite <- Hs. eapply Permutation_Forall; [|exact Hwf].
      symmetry. apply sort_ranges_perm. }
    apply Forall_cons in Hsorted_wf as [Hc Hrest].
    by apply sweep_well_formed. }
  split; [apply (gapped_strict_starts (merge_threshold tier_level)); [lia|done..]|].
  split; [done|].
  split; [apply tiered_merge_ranges_separated|].
  split; [done|].
  split; [|apply tiered_merge_ranges_length].
  pose proof (tiered_merge_ranges_nonempty ranges tier_level Hne).
  destruct (tiered_merge_ranges ranges tier_level); [done|simpl; lia].
Qed.

Lemma merged_output_shape_witness :
  let ranges : list range := [(1000, 1005); (10, 20); (21, 30); (15, 17)] in
  ranges ≠ [] ∧ Forall well_formed ranges ∧
  tiered_merge_ranges ranges 1 = [(10, 30); (1000, 1005)] ∧
  Sorted (λ a b, a.1 < b.1) (tiered_merge_ranges ranges 1) ∧
  Sorted (gapped (merge_threshold 1)) (tiered_merge_ranges ranges 1) ∧
  StronglySorted (λ a b, a.2 < b.1) (tiered_merge_ranges ranges 1) ∧
  Forall well_formed (tiered_merge_ranges ranges 1) ∧
  (1 ≤ length (tiered_merge_ranges ranges 1) ≤ length ranges)%nat.
Proof.
  intros ranges.
  assert (ranges ≠ []) as Hne by done.
  assert (Forall well_formed ranges) as Hwf.
  { repeat constructor; unfold well_formed; simpl; lia. }
  split; [done|]. split; [done|]. split; [reflexivity|].
  exact (merged_output_shape ranges 1 Hne Hwf).
Defined.

(** * The pipeline *)

(** ** Relations over all pairs of a list *)
Section Pairs.
Context {A : Type} (R : relation A).
Hypothesis R_sym : ∀ x y, R x y → R y x.

Lemma ForallOrdPairs_app l1 l2 :
  ForallOrdPairs R l1 → ForallOrdPairs R l2 →
  (∀ x y, x ∈ l1 → y ∈ l2 → R x y) →
  ForallOrdPairs R (l1 ++ l2).
Proof.
  intros H1 H2 H12. induction H1 as [|a l1 Ha H1 IH]; simpl; [done|].
  constructor.
  - apply Forall_app. split; [done|].
    apply Forall_forall. intros y Hy. apply H12; [left|done].
  - apply IH. intros x y Hx Hy. apply H12; [by right|done].
Qed.

Lemma ForallOrdPairs_perm l1 l2 :
  l1 ≡ₚ l2 → ForallOrdPairs R l1 → ForallOrdPairs R l2.
Proof.
  induction 1 as [|a l1 l2 Hp IH|a b l|l1 l2 l3 _ IH1 _ IH2]; intros Hl.
  - done.
  - inversion_clear Hl as [|? ? Ha Hl']. constructor; [|by apply IH].
    by rewrite <- Hp.
  - inversion_clear Hl as [|? ? Hb Hl']. inversion_clear Hl' as [|? ? Ha Hl].
    apply Forall_cons in Hb as [Hba Hb].
    constructor; [|by constructor]. constructor; [by apply R_sym|done].
  - auto.
Qed.

Lemma ForallOrdPairs_lookup l (i j : nat) x y :
  ForallOrdPairs R l → i ≠ j → l !! i = Some x → l !! j = Some y → R x y.
Proof.
  intros Hl. revert i j. induction Hl as [|a l Ha Hl IH]; intros i j Hij Hi Hj.
  - done.
  - rewrite Forall_forall in Ha.
    destruct i as [|i], j as [|j]; simpl in *; simplify_eq.
    + apply Ha. by eapply list_elem_of_lookup_2.
    + apply R_sym, Ha. by eapply list_elem_of_lookup_2.
    + eapply IH; [|done..]. lia.
Qed.
End Pairs.

(** ** Sorting the entries *)

Lemma entry_leb_total x y : entry_leb x y = true ∨ entry_leb y x = true.
Proof. unfold entry_leb. rewrite !Z.leb_le. lia. Qed.

Lemma sorted_lookup {A} (R : relation A) l (i : nat) x y :
  Sorted R l → l !! i = Some x → l !! S i = Some y → R x y.
Proof.
  intros Hl. revert i. induction Hl as [|a l Hl IH Hhd]; intros i Hi Hj; [done|].
  destruct i as [|i]; simpl in *.
  - simplify_eq. destruct Hhd; simpl in *; by simplify_eq.
  - by eapply IH.
Qed.

Lemma sort_entries_sorted l : sorted_by_start (sort_by entry_leb l).
Proof.
  intros i x y Hx Hy. apply Z.leb_le.
  by eapply (sorted_lookup _ _ i x y (sort_by_sorted entry_leb entry_leb_total l)).
Qed.

(** The sort by [start] is stable: the entries of one [start] stay in the
    order they had. *)
Lemma insert_entry_stable (k : Z) x l :
  filter (λ y : entry, entry_start y = k) (insert_by entry_leb x l)
  = filter (λ y : entry, entry_start y = k) (x :: l).
Proof.
  induction l as [|y l IH]; simpl; [done|].
  destruct (entry_leb x y) eqn:Hxy; [done|].
  apply Z.leb_gt in Hxy.
  rewrite (filter_cons _ y), IH, !filter_cons.
  repeat case_decide; try done; lia.
Qed.

Lemma sort_entries_stable (k : Z) l :
  filter (λ y : entry, entry_start y = k) (sort_by entry_leb l)
  = filter (λ y : entry, entry_start y = k) l.
Proof.
  induction l as [|x l IH]; simpl; [done|].
  by rewrite insert_entry_stable, !filter_cons, IH.
Qed.

(** ** The order of the codes *)

Lemma sorted_tier1 :
  sorted_codes TIER1_COUNTRIES = ["AU"; "CN"; "HK"; "JP"; "KR"; "NZ"; "SG"; "US"].
Proof. by vm_compute. Qed.

Lemma sorted_tier2 :
  sorted_codes TIER2_COUNTRIES
  = ["CA"; "DE"; "FR"; "GB"; "IN"; "IT"; "NL"; "RU"; "TW"].
Proof. by vm_compute. Qed.

Lemma sorted_codes_elem S c : c ∈ sorted_codes S ↔ c ∈ S.
Proof.
  unfold sorted_codes. rewrite (sort_by_perm String.leb (elements S)).
  apply elem_of_elements.
Qed.

Lemma sorted_codes_NoDup S : NoDup (sorted_codes S).
Proof.
  unfold sorted_codes. rewrite (sort_by_perm String.leb (elements S)).
  apply NoDup_elements.
Qed.

(** ** Loops that cannot raise *)

Lemma for_each_total {S X} (body : S → X → result S) (P : S → Prop) xs : ∀ st,
  (∀ st x, P st → ∃ st', body st x = Ok st' ∧ P st') →
  P st → ∃ st', for_each body st xs = Ok st' ∧ P st'.
Proof.
  induction xs as [|x xs IH]; intros st Hbody Hst; simpl.
  - by exists st.
  - destruct (Hbody st x Hst) as (st1 & -> & Hst1). simpl. by apply IH.
Qed.

Lemma for_each_snoc {S X} (body : S → X → result S) xs x : ∀ st,
  for_each body st (xs ++ [x]) = st' ← for_each body st xs; body st' x.
Proof.
  induction xs as [|y xs IH]; intros st; simpl.
  - by destruct (body st x).
  - destruct (body st y) as [st1|e]; simpl; [apply IH|done].
Qed.

(** ** The classifier *)

Lemma dict_append_ok d k r l :
  d !! k = Some l → dict_append d k r = Ok (<[k := l ++ [r]]> d).
Proof. intros Hk. unfold dict_append, dict_getitem. by rewrite Hk. Qed.

Lemma dict_append_inv d k r d' :
  dict_append d k r = Ok d' →
  ∃ l, d !! k = Some l ∧ d' = <[k := l ++ [r]]> d.
Proof.
  unfold dict_append, dict_getitem. destruct (d !! k) as [l|]; simpl; [|done].
  intros [= <-]. by exists l.
Qed.

Lemma dom_insert_present (d : gmap string (list range)) k l v :
  d !! k = Some l → dom (<[k := v]> d) = dom d.
Proof.
  intros Hk. rewrite dom_insert_L.
  apply subseteq_union_1_L, singleton_subseteq_l, elem_of_dom. eauto.
Qed.

Lemma truthy_nonempty s : truthy s = true ↔ s ≠ "".
Proof. by destruct s. Qed.

Lemma initial_buckets_keys : keys_ok initial_buckets.
Proof. split; simpl; apply dom_gset_to_gmap. Qed.

Section PipelineFacts.
Variable str_strip : string → string.
Variable ip_network : string → option range.
Variable country_map : gmap (option string) string.

Abbreviation classify_body := (classify_body str_strip ip_network).
Abbreviation classify_row := (classify_row str_strip ip_network country_map).
Abbreviation classify := (classify str_strip ip_network country_map).
Abbreviation build_table := (build_table str_strip ip_network country_map).

Lemma classify_body_keys b country row b' :
  classify_body b country row = Ok b' → keys_ok b → keys_ok b'.
Proof.
  unfold classify_body, keys_ok. intros Hbody [H1 H2].
  destruct (dict_getitem row "network") as [network|]; simpl in Hbody; [|done].
  destruct (ip_network (str_strip network)) as [r|]; simpl in Hbody; [|done].
  repeat case_bool_decide.
  - destruct (dict_append (tier1_data b) country r) as [d|] eqn:Hd;
      simpl in Hbody; [|done].
    injection Hbody as <-. simpl.
    apply dict_append_inv in Hd as (l & Hl & ->).
    by rewrite (dom_insert_present _ _ _ _ Hl).
  - destruct (dict_append (tier2_data b) country r) as [d|] eqn:Hd;
      simpl in Hbody; [|done].
    injection Hbody as <-. simpl.
    apply dict_append_inv in Hd as (l & Hl & ->).
    by rewrite (dom_insert_present _ _ _ _ Hl).
  - by injection Hbody as <-.
Qed.

(** A row never raises, and leaves the keys of the buckets as they are. *)
Lemma classify_row_total b row :
  keys_ok b → ∃ b', classify_row b row = Ok b' ∧ keys_ok b'.
Proof.
  intros Hb. unfold classify_row.
  destruct (truthy (resolve_country country_map row)); [|by exists b].
  destruct (classify_body b (resolve_country country_map row) row)
    as [b'|e] eqn:Hbody; simpl.
  - exists b'. split; [done|]. by eapply classify_body_keys.
  - by exists b.
Qed.

Lemma classify_total rows : ∃ b, classify rows = Ok b ∧ keys_ok b.
Proof.
  apply (for_each_total _ keys_ok).
  - intros b row. apply classify_row_total.
  - apply initial_buckets_keys.
Qed.

(** ** The assembly *)

Lemma emit_country_ok data tier_level acc c ranges :
  data !! c = Some ranges →
  emit_country data tier_level acc c
  = Ok (acc ++ (tag c <$> tiered_merge_ranges ranges tier_level)).
Proof.
  intros Hc. unfold emit_country, dict_getitem. rewrite Hc. simpl.
  destruct ranges; [by rewrite app_nil_r|done].
Qed.

Lemma for_each_emit_country data tier_level codes : ∀ acc,
  Forall (λ c, c ∈ dom data) codes →
  for_each (emit_country data tier_level) acc codes
  = Ok (acc ++ emitted data tier_level codes).
Proof.
  induction codes as [|c codes IH]; intros acc Hcodes.
  - simpl. by rewrite app_nil_r.
  - apply Forall_cons in Hcodes as [Hc Hcodes].
    apply elem_of_dom in Hc as [ranges Hc].
    cbn [for_each]. rewrite (emit_country_ok _ _ _ _ _ Hc).
    cbn [mbind result_bind]. rewrite IH by done.
    cbn [emitted flat_map]. rewrite Hc. simpl. by rewrite <- app_assoc.
Qed.

Lemma emit_other_eq tier3 acc :
  emit_other tier3 acc
  = acc ++ (tag OTHER_COUNTRY_CODE <$> tiered_merge_ranges tier3 3).
Proof. destruct tier3; simpl; [by rewrite app_nil_r|done]. Qed.

Lemma assemble_ok b :
  keys_ok b → assemble b = Ok (sort_by entry_leb (all_entries b)).
Proof.
  intros [H1 H2]. unfold assemble.
  rewrite for_each_emit_country; simpl.
  2:{ apply Forall_forall. intros c. rewrite H1. apply sorted_codes_elem. }
  rewrite for_each_emit_country; simpl.
  2:{ apply Forall_forall. intros c. rewrite H2. apply sorted_codes_elem. }
  by rewrite emit_other_eq, <- app_assoc.
Qed.

Lemma build_table_ok rows :
  ∃ b, classify rows = Ok b ∧ keys_ok b ∧
       build_table rows = Ok (sort_by entry_leb (all_entries b)).
Proof.
  destruct (classify_total rows) as (b & Hb & Hkeys).
  exists b. split; [done|]. split; [done|].
  unfold build_table. rewrite Hb. simpl. by apply assemble_ok.
Qed.

(** ** Entries of one code *)

Lemma code_disjoint_sym x y : code_disjoint x y → code_disjoint y x.
Proof. unfold code_disjoint, disjoint_ranges. intros Hxy Hc. symmetry in Hc. tauto. Qed.

Lemma tagged_merge_pairs c ranges tier_level :
  ForallOrdPairs code_disjoint (tag c <$> tiered_merge_ranges ranges tier_level).
Proof.
  pose proof (tiered_merge_ranges_separated ranges tier_level) as Hsep.
  induction Hsep as [|a l Hl IH Ha]; simpl; constructor; [|done].
  apply Forall_fmap. eapply Forall_impl; [exact Ha|].
  intros b Hab _. by left.
Qed.

Lemma emitted_code data tier_level codes x :
  x ∈ emitted data tier_level codes → entry_code x ∈ codes.
Proof.
  unfold emitted. rewrite list_elem_of_In, in_flat_map.
  intros (c & Hc & Hx). apply list_elem_of_In in Hc, Hx.
  apply list_elem_of_fmap in Hx as (r & -> & _). done.
Qed.

Lemma emitted_pairs data tier_level codes :
  NoDup codes → ForallOrdPairs code_disjoint (emitted data tier_level codes).
Proof.
  induction 1 as [|c codes Hc Hnd IH]; simpl; [constructor|].
  apply ForallOrdPairs_app; [apply tagged_merge_pairs|done|].
  intros x y Hx Hy Hcode. apply list_elem_of_fmap in Hx as (r & -> & _).
  apply emitted_code in Hy. simpl in Hcode. by rewrite <- Hcode in Hy.
Qed.

Lemma all_entries_pairs b : ForallOrdPairs code_disjoint (all_entries b).
Proof.
  unfold all_entries.
  apply ForallOrdPairs_app; [apply emitted_pairs, sorted_codes_NoDup| |].
  - apply ForallOrdPairs_app;
      [apply emitted_pairs, sorted_codes_NoDup|apply tagged_merge_pairs|].
    intros x y Hx Hy Hcode. apply emitted_code, sorted_codes_elem in Hx.
    apply list_elem_of_fmap in Hy as (r & -> & _). simpl in Hcode.
    rewrite Hcode in Hx. by vm_compute in Hx.
  - intros x y Hx Hy Hcode. apply emitted_code, sorted_codes_elem in Hx.
    apply elem_of_app in Hy as [Hy|Hy].
    + apply emitted_code, sorted_codes_elem in Hy. rewrite <- Hcode in Hy.
      assert (entry_code x ∈ TIER1_COUNTRIES ∩ TIER2_COUNTRIES) as Hboth
        by set_solver.
      by vm_compute in Hboth.
    + apply list_elem_of_fmap in Hy as (r & -> & _). simpl in Hcode.
      rewrite Hcode in Hx. by vm_compute in Hx.
Qed.
End PipelineFacts.

(** * The claims on the classifier and on the final table *)

(** C1, as the specification states it, fails: the two blocks of Brazil, a
    tier-3 country, lie 257 addresses apart and are joined into one [ZZ]
    entry, which contains the block of China that lies between them. *)
Lemma final_table_overlap :
  Demo.build Demo.rows
  = Ok [(16777216, 16777983, "ZZ"); (16777472, 16777727, "CN")] ∧
  ¬ pairwise_disjoint [(16777216, 16777983, "ZZ"); (16777472, 16777727, "CN")].
Proof.
  split; [by vm_compute|].
  intros Hall.
  specialize (Hall 0%nat 1%nat _ _ ltac:(done) eq_refl eq_refl).
  unfold disjoint_ranges, entry_range in Hall. simpl in Hall. lia.
Qed.

(** C1, amended. The run always produces a table, and in it every two
    entries at different positions that carry the same code have ranges with
    no address in common. *)
Theorem same_code_entries_disjoint
    (str_strip : string → string) (ip_network : string → option range)
    (country_map : gmap (option string) string) (rows : list csv_row) :
  ∃ table,
    build_table str_strip ip_network country_map rows = Ok table ∧
    same_code_disjoint table.
Proof.
  destruct (build_table_ok str_strip ip_network country_map rows)
    as (b & _ & _ & ->).
  eexists. split; [done|].
  assert (ForallOrdPairs code_disjoint (sort_by entry_leb (all_entries b)))
    as Hpairs.
  { eapply (ForallOrdPairs_perm _ code_disjoint_sym);
      [symmetry; apply sort_by_perm|apply all_entries_pairs]. }
  intros i j x y Hij Hx Hy.
  exact (ForallOrdPairs_lookup _ code_disjoint_sym _ i j x y Hpairs Hij Hx Hy).
Qed.

(** C4. The run always produces a table, and the table is in ascending order
    of [start]: each entry starts no later than the next one. *)
Theorem final_table_sorted
    (str_strip : string → string) (ip_network : string → option range)
    (country_map : gmap (option string) string) (rows : list csv_row) :
  ∃ table,
    build_table str_strip ip_network country_map rows = Ok table ∧
    sorted_by_start table.
Proof.
  destruct (build_table_ok str_strip ip_network country_map rows)
    as (b & _ & _ & ->).
  eexists. split; [done|]. apply sort_entries_sorted.
Qed.

(** ** Counting the ranges held *)

Lemma held_insert (d : gmap string (list range)) k l r :
  d !! k = Some l →
  map_fold (λ _ l n, length l + n)%nat 0%nat (<[k := l ++ [r]]> d)
  = S (map_fold (λ _ l n, length l + n)%nat 0%nat d).
Proof.
  intros Hk. rewrite <- (insert_delete_id d k l Hk) at 2.
  rewrite <- (insert_delete_eq d k (l ++ [r])).
  rewrite !map_fold_insert_L; [|intros; lia|apply lookup_delete_eq
                              |intros; lia|apply lookup_delete_eq].
  rewrite length_app. simpl. lia.
Qed.

(** ** The catch-all entries of the table *)

Lemma all_entries_other b x :
  x ∈ all_entries b ∧ entry_code x = OTHER_COUNTRY_CODE ↔
  ∃ r, r ∈ tiered_merge_ranges (tier3_data b) 3 ∧ x = tag OTHER_COUNTRY_CODE r.
Proof.
  unfold all_entries. rewrite !elem_of_app, list_elem_of_fmap. split.
  - intros [[Hx|[Hx|Hx]] Hcode].
    + apply emitted_code, sorted_codes_elem in Hx. rewrite Hcode in Hx.
      by vm_compute in Hx.
    + apply emitted_code, sorted_codes_elem in Hx. rewrite Hcode in Hx.
      by vm_compute in Hx.
    + destruct Hx as (r & -> & Hr). by exists r.
  - intros (r & Hr & ->). split; [|done]. right. right. by exists r.
Qed.

Lemma held_to_tier1 country r b b' : to_tier1 country r b b' → held b' = S (held b).
Proof.
  intros [(l & Hl & Hd) [H2 H3]]. unfold held.
  rewrite Hd, H2, H3, (held_insert _ _ _ _ Hl). lia.
Qed.

Lemma held_to_tier2 country r b b' : to_tier2 country r b b' → held b' = S (held b).
Proof.
  intros [H1 [(l & Hl & Hd) H3]]. unfold held.
  rewrite H1, Hd, H3, (held_insert _ _ _ _ Hl). lia.
Qed.

Lemma held_to_tier3 r b b' : to_tier3 r b b' → held b' = S (held b).
Proof.
  intros [H1 [H2 H3]]. unfold held. rewrite H1, H2, H3, length_app. simpl. lia.
Qed.

(** A kept record from buckets that have their keys. *)
Lemma classify_row_kept
    (str_strip : string → string) (ip_network : string → option range)
    (country_map : gmap (option string) string)
    (b : buckets) (row : csv_row) (network : string) (r : range) :
  keys_ok b →
  resolve_country country_map row ≠ "" →
  row !! "network" = Some network →
  ip_network (str_strip network) = Some r →
  ∃ b',
    classify_row str_strip ip_network country_map b row = Ok b' ∧
    (resolve_country country_map row ∈ TIER1_COUNTRIES →
       to_tier1 (resolve_country country_map row) r b b') ∧
    (resolve_country country_map row ∉ TIER1_COUNTRIES →
     resolve_country country_map row ∈ TIER2_COUNTRIES →
       to_tier2 (resolve_country country_map row) r b b') ∧
    (resolve_country country_map row ∉ TIER1_COUNTRIES →
     resolve_country country_map row ∉ TIER2_COUNTRIES →
       to_tier3 r b b') ∧
    held b' = S (held b) ∧
    ∃ table,
      assemble b' = Ok table ∧
      ∀ x, x ∈ table ∧ entry_code x = OTHER_COUNTRY_CODE ↔
           ∃ r', r' ∈ tiered_merge_ranges (tier3_data b') 3 ∧
                 x = (r'.1, r'.2, OTHER_COUNTRY_CODE).
Proof.
  intros Hkeys Hcountry Hnetwork Hparse.
  destruct (classify_row_total str_strip ip_network country_map b row Hkeys)
    as (b' & Hrow & Hkeys').
  exists b'. split; [done|].
  unfold classify_row in Hrow. apply truthy_nonempty in Hcountry.
  rewrite Hcountry in Hrow. unfold classify_body, dict_getitem in Hrow.
  rewrite Hnetwork in Hrow. simpl in Hrow. rewrite Hparse in Hrow.
  simpl in Hrow. destruct Hkeys as [Hk1 Hk2].
  assert (held b' = S (held b) ∧
          (resolve_country country_map row ∈ TIER1_COUNTRIES →
             to_tier1 (resolve_country country_map row) r b b') ∧
          (resolve_country country_map row ∉ TIER1_COUNTRIES →
           resolve_country country_map row ∈ TIER2_COUNTRIES →
             to_tier2 (resolve_country country_map row) r b b') ∧
          (resolve_country country_map row ∉ TIER1_COUNTRIES →
           resolve_country country_map row ∉ TIER2_COUNTRIES →
             to_tier3 r b b')) as (Hheld & Ht1 & Ht2 & Ht3).
  { repeat case_bool_decide.
    - assert (resolve_country country_map row ∈ dom (tier1_data b)) as Hin
        by by rewrite Hk1.
      apply elem_of_dom in Hin as [l Hl].
      rewrite (dict_append_ok _ _ _ _ Hl) in Hrow. simpl in Hrow.
      injection Hrow as <-.
      assert (to_tier1 (resolve_country country_map row) r b
                {| tier1_data := <[resolve_country country_map row := l ++ [r]]>
                                   (tier1_data b);
                   tier2_data := tier2_data b; tier3_data := tier3_data b |})
        as Hto by (split; [by exists l|done]).
      split; [by eapply held_to_tier1|]. tauto.
    - assert (resolve_country country_map row ∈ dom (tier2_data b)) as Hin
        by by rewrite Hk2.
      apply elem_of_dom in Hin as [l Hl].
      rewrite (dict_append_ok _ _ _ _ Hl) in Hrow. simpl in Hrow.
      injection Hrow as <-.
      assert (to_tier2 (resolve_country country_map row) r b
                {| tier1_data := tier1_data b;
                   tier2_data := <[resolve_country country_map row := l ++ [r]]>
                                   (tier2_data b);
                   tier3_data := tier3_data b |})
        as Hto by (split; [done|split; [by exists l|done]]).
      split; [by eapply held_to_tier2|]. tauto.
    - injection Hrow as <-.
      assert (to_tier3 r b
                {| tier1_data := tier1_data b; tier2_data := tier2_data b;
                   tier3_data := tier3_data b ++ [r] |}) as Hto by done.
      split; [by eapply held_to_tier3|]. tauto. }
  do 4 (split; [done|]).
  exists (sort_by entry_leb (all_entries b')). split; [by apply assemble_ok|].
  intros x. rewrite <- all_entries_other.
  by rewrite (sort_by_perm entry_leb (all_entries b')).
Qed.


(** C7. A record that is kept (its code is resolved and its address parses)
    goes to exactly one bucket: to the tier-1 list of its code when the code
    is in the tier-1 set; otherwise to the tier-2 list of its code when the
    code is in the tier-2 set; otherwise to the single tier-3 list, which
    holds ranges without a code. All other lists stay as they are, so the
    buckets hold one range more. In the table, the entries under [ZZ] are
    exactly the merged ranges of the tier-3 list. *)
Theorem classifier_routes_to_one_bucket
    (str_strip : string → string) (ip_network : string → option range)
    (country_map : gmap (option string) string)
    (rows : list csv_row) (row : csv_row) (network : string) (r : range) :
  resolve_country country_map row ≠ "" →
  row !! "network" = Some network →
  ip_network (str_strip network) = Some r →
  ∃ b b',
    classify str_strip ip_network country_map rows = Ok b ∧
    classify str_strip ip_network country_map (rows ++ [row]) = Ok b' ∧
    (resolve_country country_map row ∈ TIER1_COUNTRIES →
       to_tier1 (resolve_country country_map row) r b b') ∧
    (resolve_country country_map row ∉ TIER1_COUNTRIES →
     resolve_country country_map row ∈ TIER2_COUNTRIES →
       to_tier2 (resolve_country country_map row) r b b') ∧
    (resolve_country country_map row ∉ TIER1_COUNTRIES →
     resolve_country country_map row ∉ TIER2_COUNTRIES →
       to_tier3 r b b') ∧
    held b' = S (held b) ∧
    ∃ table,
      assemble b' = Ok table ∧
      ∀ x, x ∈ table ∧ entry_code x = OTHER_COUNTRY_CODE ↔
           ∃ r', r' ∈ tiered_merge_ranges (tier3_data b') 3 ∧
                 x = (r'.1, r'.2, OTHER_COUNTRY_CODE).
Proof.
  intros Hcountry Hnetwork Hparse.
  destruct (classify_total str_strip ip_network country_map rows)
    as (b & Hb & Hkeys).
  destruct (classify_row_kept str_strip ip_network country_map b row network r
              Hkeys Hcountry Hnetwork Hparse) as (b' & Hrow & Hrouted).
  exists b, b'. split; [done|]. split; [|done].
  unfold classify in *. by rewrite for_each_snoc, Hb.
Qed.

Lemma classifier_routes_to_one_bucket_witness :
  let rows := [Demo.block "1.0.0.0/24" "3469034"] in
  let row := Demo.block "1.0.1.0/24" "1814991" in
  resolve_country Demo.locations row = "CN" ∧
  row !! "network" = Some "1.0.1.0/24" ∧
  Py.ip_network (Py.strip "1.0.1.0/24") = Some (16777472, 16777727) ∧
  ∃ b b',
    classify Py.strip Py.ip_network Demo.locations rows = Ok b ∧
    classify Py.strip Py.ip_network Demo.locations (rows ++ [row]) = Ok b' ∧
    to_tier1 "CN" (16777472, 16777727) b b' ∧
    held b' = S (held b).
Proof.
  intros rows row.
  assert (resolve_country Demo.locations row = "CN") as Hcode by by vm_compute.
  assert (row !! "network" = Some "1.0.1.0/24") as Hnetwork by by vm_compute.
  assert (Py.ip_network (Py.strip "1.0.1.0/24") = Some (16777472, 16777727))
    as Hparse by by vm_compute.
  assert (resolve_country Demo.locations row ≠ "") as Hne
    by (rewrite Hcode; discriminate).
  do 3 (split; [done|]).
  destruct (classifier_routes_to_one_bucket Py.strip Py.ip_network
              Demo.locations rows row _ _ Hne Hnetwork Hparse)
    as (b & b' & Hb & Hb' & Ht1 & _ & _ & Hheld & _).
  exists b, b'. do 2 (split; [done|]). split; [|done].
  rewrite Hcode in Ht1. apply Ht1. by vm_compute.
Defined.

(** ** Reading the blocks file *)

Lemma classify_file_none str_strip ip_network country_map f :
  classify_file str_strip ip_network country_map f = None ↔ blocks_fails f.
Proof.
  destruct f as [[rows raises]|]; simpl; [|done].
  destruct (classify_total str_strip ip_network country_map rows)
    as (b & -> & _).
  by destruct raises.
Qed.

Lemma classify_file_read str_strip ip_network country_map rows :
  ∃ b,
    classify str_strip ip_network country_map rows = Ok b ∧
    classify_file str_strip ip_network country_map (Some (BlocksFile rows false))
    = Some b.
Proof.
  destruct (classify_total str_strip ip_network country_map rows)
    as (b & Hb & _).
  exists b. split; [done|]. simpl. by rewrite Hb.
Qed.

Lemma run_table_fails str_strip ip_network country_map f :
  blocks_fails f → run_table str_strip ip_network country_map f = None.
Proof.
  intros Hf. unfold run_table.
  by rewrite (proj2 (classify_file_none str_strip ip_network country_map f) Hf).
Qed.

Lemma run_table_read str_strip ip_network country_map rows :
  ∃ table,
    build_table str_strip ip_network country_map rows = Ok table ∧
    run_table str_strip ip_network country_map (Some (BlocksFile rows false))
    = Some table.
Proof.
  destruct (build_table_ok str_strip ip_network country_map rows)
    as (b & Hb & Hkeys & Htable).
  eexists. split; [exact Htable|].
  unfold run_table. simpl. rewrite Hb. by rewrite (assemble_ok b Hkeys).
Qed.

Lemma classify_row_never_raises
    (str_strip : string → string) (ip_network : string → option range)
    (country_map : gmap (option string) string) b row :
  ∃ b', classify_row str_strip ip_network country_map b row = Ok b'.
Proof.
  unfold classify_row. destruct (truthy _); [|by exists b].
  destruct (classify_body _ _ _ _ _) as [b'|e]; simpl; eauto.
Qed.

(** C8, as the specification states it, fails: when the second line of the
    blocks file does not decode, the reader raises outside the [try] of the
    loop body; the exception escapes the classifier and the run ends without
    a table. *)
Lemma reader_error_escapes :
  classify_file Py.strip Py.ip_network Demo.locations Demo.undecodable = None ∧
  run_table Py.strip Py.ip_network Demo.locations Demo.undecodable = None ∧
  ¬ (∀ f : option blocks_file,
       ∃ b, classify_file Py.strip Py.ip_network Demo.locations f = Some b).
Proof.
  assert (classify_file Py.strip Py.ip_network Demo.locations Demo.undecodable
          = None) as Hnone by by vm_compute.
  split; [done|]. split; [by vm_compute|].
  intros Hall. destruct (Hall Demo.undecodable) as [b Hb]. congruence.
Qed.

(** C8, amended. A record whose location is not in the locations mapping, or
    is mapped to an empty code, is added to no bucket; a record whose address
    is missing or does not parse is added to no bucket either; no record
    that the reader delivers makes the classifier raise. The classifier
    raises exactly when [open] or the reader itself raises, which ends the
    run. *)
Theorem classifier_drops_and_skips
    (str_strip : string → string) (ip_network : string → option range)
    (country_map : gmap (option string) string)
    (b : buckets) (row : csv_row) :
  (let geoname_id :=
     py_or (row !! "registered_country_geoname_id") (row !! "geoname_id") in
   country_map !! geoname_id = None ∨ country_map !! geoname_id = Some "")
  ∨ row !! "network" = None
  ∨ (∃ network, row !! "network" = Some network ∧
                ip_network (str_strip network) = None) →
  classify_row str_strip ip_network country_map b row = Ok b ∧
  (∀ b0 row0, ∃ b', classify_row str_strip ip_network country_map b0 row0 = Ok b') ∧
  (∀ f, classify_file str_strip ip_network country_map f = None ↔
        blocks_fails f).
Proof.
  intros Hbad. split; [|split].
  - unfold classify_row, resolve_country.
    destruct Hbad as [Hcode|[Hmissing|(network & Hnetwork & Hparse)]].
    + simpl in Hcode. by destruct Hcode as [-> | ->].
    + destruct (truthy _); [|done].
      unfold classify_body, dict_getitem. by rewrite Hmissing.
    + destruct (truthy _); [|done].
      unfold classify_body, dict_getitem. rewrite Hnetwork. simpl.
      by rewrite Hparse.
  - apply classify_row_never_raises.
  - intros f. apply classify_file_none.
Qed.

Lemma classifier_drops_and_skips_witness :
  let row := Demo.block "1.0.x.0/24" "1814991" in
  (∃ network, row !! "network" = Some network ∧
              Py.ip_network (Py.strip network) = None) ∧
  classify_row Py.strip Py.ip_network Demo.locations initial_buckets row
  = Ok initial_buckets.
Proof.
  intros row.
  assert (∃ network, row !! "network" = Some network ∧
                     Py.ip_network (Py.strip network) = None) as Hbad.
  { exists "1.0.x.0/24". split; by vm_compute. }
  split; [done|].
  apply (classifier_drops_and_skips Py.strip Py.ip_network Demo.locations
           initial_buckets row).
  right. right. exact Hbad.
Defined.

(** * Further properties of the merger *)

Lemma tiered_merge_ranges_perm l1 l2 tier_level :
  l1 ≡ₚ l2 → tiered_merge_ranges l1 tier_level = tiered_merge_ranges l2 tier_level.
Proof.
  intros Hp. rewrite !tiered_merge_ranges_spec. unfold merge_spec.
  rewrite (sort_ranges_unique l1 (sort_ranges l2)); [done| |].
  - apply sort_ranges_sorted.
  - by rewrite sort_ranges_perm.
Qed.

(** The merger reads its input as a bag: the order of the ranges in the
    list does not change the result. *)
Theorem merger_order_independent (l1 l2 : list range) (tier_level : Z) :
  l1 ≡ₚ l2 → tiered_merge_ranges l1 tier_level = tiered_merge_ranges l2 tier_level.
Proof. apply tiered_merge_ranges_perm. Qed.

Lemma merger_order_independent_witness :
  tiered_merge_ranges [(25, 30); (1000, 1005); (10, 24)] 1
  = tiered_merge_ranges [(10, 24); (25, 30); (1000, 1005)] 1.
Proof.
  apply merger_order_independent.
  change ([(25, 30); (1000, 1005)] ++ [(10, 24)] ≡ₚ (10, 24) :: [(25, 30); (1000, 1005)]).
  symmetry. apply Permutation_cons_append.
Defined.

Lemma sweep_endpoints t l : ∀ cs ce a b,
  (a, b) ∈ sweep t cs ce l →
  (a = cs ∨ ∃ e, (a, e) ∈ l) ∧ (b = ce ∨ ∃ s, (s, b) ∈ l).
Proof.
  induction l as [|[s e] l IH]; intros cs ce a b Hab; simpl in Hab.
  - apply list_elem_of_singleton in Hab as [= -> ->]. split; by left.
  - destruct (s - ce <=? t).
    + destruct (IH _ _ _ _ Hab) as [Ha Hb]. split.
      * destruct Ha as [->|[e' He']]; [by left|right; exists e'; by right].
      * destruct Hb as [->|[s' Hs']]; [|right; exists s'; by right].
        destruct (Z.max_spec ce e) as [[_ ->]|[_ ->]];
          [right; exists s; left|by left].
    + apply elem_of_cons in Hab as [[= -> ->]|Hab]; [split; by left|].
      destruct (IH _ _ _ _ Hab) as [Ha Hb]. split.
      * right. destruct Ha as [->|[e' He']]; [exists e; left|exists e'; by right].
      * right. destruct Hb as [->|[s' Hs']]; [exists s; left|exists s'; by right].
Qed.

Lemma tiered_merge_ranges_endpoints ranges tier_level a b :
  (a, b) ∈ tiered_merge_ranges ranges tier_level →
  (∃ e, (a, e) ∈ ranges) ∧ (∃ s, (s, b) ∈ ranges).
Proof.
  intros Hab. destruct ranges as [|r0 ranges].
  { by apply elem_of_nil in Hab. }
  destruct (tiered_merge_ranges_sweep (r0 :: ranges) tier_level)
    as (cs & ce & rest & Hs & Heq); [done|].
  rewrite Heq in Hab. apply sweep_endpoints in Hab as [Ha Hb].
  pose proof (sort_ranges_perm (r0 :: ranges)) as Hp. rewrite Hs in Hp.
  split.
  - destruct Ha as [->|[e He]].
    + exists ce. rewrite <- Hp. left.
    + exists e. rewrite <- Hp. by right.
  - destruct Hb as [->|[s Hs']].
    + exists cs. rewrite <- Hp. left.
    + exists s. rewrite <- Hp. by right.
Qed.

(** The merger invents no boundary: every output interval starts where some
    input range starts and ends where some input range ends. *)
Theorem merger_endpoints_from_input
    (ranges : list range) (tier_level a b : Z) :
  (a, b) ∈ tiered_merge_ranges ranges tier_level →
  (∃ e, (a, e) ∈ ranges) ∧ (∃ s, (s, b) ∈ ranges).
Proof. apply tiered_merge_ranges_endpoints. Qed.

Lemma merger_endpoints_from_input_witness :
  (∃ e, (10, e) ∈ [(25, 30); (10, 20)]) ∧ (∃ s, (s, 30) ∈ [(25, 30); (10, 20)]).
Proof.
  apply (merger_endpoints_from_input [(25, 30); (10, 20)] 2 10 30).
  vm_compute. left.
Defined.

(** The lists that the merger returns unchanged are exactly the lists that
    are sorted by the pair with every consecutive gap wider than the
    threshold. *)
Theorem merger_fixed_points (l : list range) (tier_level : Z) :
  tiered_merge_ranges l tier_level = l ↔
  Sorted range_le l ∧ Sorted (gapped (merge_threshold tier_level)) l.
Proof.
  split.
  - intros Hfix. rewrite <- Hfix.
    split; [apply tiered_merge_ranges_sorted|apply tiered_merge_ranges_gapped].
  - intros [Hs Hg]. rewrite tiered_merge_ranges_spec. unfold merge_spec.
    rewrite (sort_ranges_id _ Hs). destruct l as [|[cs ce] l]; [done|].
    by apply sweep_gapped_id.
Qed.

(** The open interval is never lost from the output. *)
Lemma sweep_covers_open t x cs ce l :
  cs ≤ x ≤ ce → covered x (sweep t cs ce l).
Proof.
  intros Hx. destruct (sweep_head t cs ce l) as (ce' & out & -> & Hle).
  exists (cs, ce'). split; [left|unfold in_range; simpl; lia].
Qed.

(** What a sweep adds lies in a gap it closed: between two addresses of the
    set [C], at most the threshold apart, where [C] holds the end of the open
    interval, the open interval up to what was added before, and the
    remaining ranges. *)
Lemma sweep_adds_gaps t (C : Z → Prop) x l : ∀ cs ce,
  C ce →
  (∀ y, cs ≤ y ≤ ce → C y ∨ ∃ a b, C a ∧ C b ∧ a < y < b ∧ b - a ≤ t) →
  Forall well_formed l →
  (∀ r y, r ∈ l → in_range y r → C y) →
  covered x (sweep t cs ce l) →
  C x ∨ ∃ a b, C a ∧ C b ∧ a < x < b ∧ b - a ≤ t.
Proof.
  induction l as [|[s e] l IH]; intros cs ce Hce Hopen Hwf Hl Hx; simpl in Hx.
  - destruct Hx as (r & Hr & Hin).
    apply list_elem_of_singleton in Hr as ->. by apply Hopen.
  - apply Forall_cons in Hwf as [Hse Hwf]. unfold well_formed in Hse.
    simpl in Hse.
    assert (∀ y, s ≤ y ≤ e → C y) as Hcur.
    { intros y Hy. apply (Hl (s, e)); [left|done]. }
    assert (∀ r y, r ∈ l → in_range y r → C y) as Hl'.
    { intros r y Hr. apply Hl. by right. }
    destruct (s - ce <=? t) eqn:Hgap.
    + apply Z.leb_le in Hgap. apply (IH cs (Z.max ce e)); [| |done..].
      * destruct (Z.max_spec ce e) as [[_ ->]|[_ ->]]; [apply Hcur; lia|done].
      * intros y Hy. destruct (decide (y ≤ ce)); [apply Hopen; lia|].
        destruct (decide (s ≤ y)); [left; apply Hcur; lia|].
        right. exists ce, s. split; [done|]. split; [apply Hcur; lia|lia].
    + destruct Hx as (r & Hr & Hin).
      apply elem_of_cons in Hr as [->|Hr]; [by apply Hopen|].
      apply (IH s e); [apply Hcur; lia| |done..|by exists r].
      intros y Hy. left. by apply Hcur.
Qed.

Lemma tiered_merge_ranges_gaps ranges tier_level x :
  Forall well_formed ranges →
  covered x (tiered_merge_ranges ranges tier_level) →
  covered x ranges ∨
  ∃ a b, covered a ranges ∧ covered b ranges ∧ a < x < b ∧
         b - a ≤ merge_threshold tier_level.
Proof.
  intros Hwf Hx. destruct ranges as [|r0 ranges].
  { destruct Hx as (r & Hr & _). by apply elem_of_nil in Hr. }
  destruct (tiered_merge_ranges_sweep (r0 :: ranges) tier_level)
    as (cs & ce & rest & Hs & Heq); [done|].
  rewrite Heq in Hx.
  pose proof (sort_ranges_perm (r0 :: ranges)) as Hp. rewrite Hs in Hp.
  rewrite <- Hp in Hwf. apply Forall_cons in Hwf as [Hc Hrest].
  unfold well_formed in Hc. simpl in Hc.
  assert (∀ y, cs ≤ y ≤ ce → covered y (r0 :: ranges)) as Hopen.
  { intros y Hy. exists (cs, ce). split; [rewrite <- Hp; left|done]. }
  apply (sweep_adds_gaps _ (λ y, covered y (r0 :: ranges)) x rest cs ce);
    [apply Hopen; lia|intros y Hy; left; by apply Hopen|done| |done].
  intros r y Hr Hin. exists r. split; [rewrite <- Hp; by right|done].
Qed.

(** An address that the output covers and the input does not lies strictly
    between two addresses that the input covers and that are at most the
    tier's threshold apart: the merger fills gaps and nothing else. *)
Theorem merger_adds_only_gaps (ranges : list range) (tier_level x : Z) :
  Forall well_formed ranges →
  covered x (tiered_merge_ranges ranges tier_level) →
  covered x ranges ∨
  ∃ a b, covered a ranges ∧ covered b ranges ∧ a < x < b ∧
         b - a ≤ merge_threshold tier_level.
Proof. apply tiered_merge_ranges_gaps. Qed.

Lemma merger_adds_only_gaps_witness :
  let ranges : list range := [(0, 0); (5, 5)] in
  Forall well_formed ranges ∧
  covered 3 (tiered_merge_ranges ranges 2) ∧
  (covered 3 ranges ∨
   ∃ a b, covered a ranges ∧ covered b ranges ∧ a < 3 < b ∧
          b - a ≤ merge_threshold 2).
Proof.
  intros ranges.
  assert (Forall well_formed ranges) as Hwf
    by (repeat constructor; unfold well_formed; simpl; lia).
  assert (covered 3 (tiered_merge_ranges ranges 2)) as Hx.
  { exists (0, 5). split; [vm_compute; left|unfold in_range; simpl; lia]. }
  split; [done|]. split; [done|].
  exact (merger_adds_only_gaps ranges 2 3 Hwf Hx).
Defined.

(** A sweep with a larger threshold, from an open interval that contains the
    other one, covers what the other sweep covers. *)
Lemma sweep_covers_mono t1 t2 x l : ∀ cs1 ce1 cs2 ce2,
  t1 ≤ t2 → cs2 ≤ cs1 → ce1 ≤ ce2 →
  Forall (λ r, cs1 ≤ r.1) l → StronglySorted range_le l →
  covered x (sweep t1 cs1 ce1 l) → covered x (sweep t2 cs2 ce2 l).
Proof.
  induction l as [|[s e] l IH]; intros cs1 ce1 cs2 ce2 Ht Hcs Hce Hlow Hl Hx.
  - destruct Hx as (r & Hr & Hin).
    apply list_elem_of_singleton in Hr as ->. unfold in_range in Hin.
    exists (cs2, ce2). split; [left|unfold in_range; simpl in *; lia].
  - apply Forall_cons in Hlow as [Hs Hlow]. simpl in Hs.
    apply StronglySorted_cons in Hl as [Hse Hl].
    assert (Forall (λ r : range, s ≤ r.1) l) as Hlow'.
    { eapply Forall_impl; [exact Hse|]. intros r. unfold range_le. simpl. lia. }
    simpl in Hx |- *.
    destruct (s - ce1 <=? t1) eqn:H1, (s - ce2 <=? t2) eqn:H2;
      try apply Z.leb_le in H1; try apply Z.leb_le in H2;
      try apply Z.leb_gt in H1; try apply Z.leb_gt in H2.
    + apply (IH cs1 (Z.max ce1 e)); [done..|lia|done|done|done].
    + lia.
    + destruct Hx as (r & Hr & Hin).
      apply elem_of_cons in Hr as [->|Hr].
      * apply sweep_covers_open. unfold in_range in Hin. simpl in Hin. lia.
      * apply (IH s e); [done|lia|lia|done|done|by exists r].
    + destruct Hx as (r & Hr & Hin).
      apply elem_of_cons in Hr as [->|Hr].
      * exists (cs2, ce2). split; [left|].
        unfold in_range in *. simpl in *. lia.
      * destruct (IH s e s e Ht) as (r' & Hr' & Hin');
          [lia|lia|done|done|by exists r|].
        exists r'. split; [by right|done].
Qed.

(** On the same input, a tier level with a larger threshold covers every
    address that one with a smaller threshold covers: precision only falls
    from tier 1 to tier 2 to tier 3. *)
Theorem larger_threshold_covers_more
    (ranges : list range) (tier_a tier_b x : Z) :
  merge_threshold tier_a ≤ merge_threshold tier_b →
  covered x (tiered_merge_ranges ranges tier_a) →
  covered x (tiered_merge_ranges ranges tier_b).
Proof.
  intros Ht Hx. destruct ranges as [|r0 ranges]; [done|].
  destruct (tiered_merge_ranges_sweep (r0 :: ranges) tier_a)
    as (cs & ce & rest & Hs & Heqa); [done|].
  destruct (tiered_merge_ranges_sweep (r0 :: ranges) tier_b)
    as (cs' & ce' & rest' & Hs' & Heqb); [done|].
  rewrite Hs in Hs'. injection Hs' as <- <- <-.
  rewrite Heqa in Hx. rewrite Heqb.
  pose proof (sort_ranges_cons _ _ _ _ Hs) as [Hrest Hhd].
  eapply sweep_covers_mono; [exact Ht|done|done| |done|exact Hx].
  eapply Forall_impl; [exact Hhd|]. intros r. unfold range_le. simpl. lia.
Qed.

Lemma larger_threshold_covers_more_witness :
  let ranges : list range := [(0, 0); (5, 5); (300000, 300010)] in
  merge_threshold 2 ≤ merge_threshold 3 ∧
  covered 3 (tiered_merge_ranges ranges 2) ∧
  covered 3 (tiered_merge_ranges ranges 3).
Proof.
  intros ranges.
  assert (merge_threshold 2 ≤ merge_threshold 3) as Ht by by vm_compute.
  assert (covered 3 (tiered_merge_ranges ranges 2)) as Hx.
  { exists (0, 5). split; [vm_compute; left|unfold in_range; simpl; lia]. }
  split; [done|]. split; [done|].
  exact (larger_threshold_covers_more ranges 2 3 3 Ht Hx).
Defined.

(** * Further properties of the classifier *)

Lemma ranges_of_app c recs1 recs2 :
  ranges_of c (recs1 ++ recs2) = ranges_of c recs1 ++ ranges_of c recs2.
Proof. unfold ranges_of. by rewrite filter_app, fmap_app. Qed.

Lemma other_ranges_app recs1 recs2 :
  other_ranges (recs1 ++ recs2) = other_ranges recs1 ++ other_ranges recs2.
Proof. unfold other_ranges. by rewrite filter_app, fmap_app. Qed.

Lemma ranges_of_singleton c c' r :
  ranges_of c [(c', r)] = if decide (c' = c) then [r] else [].
Proof.
  unfold ranges_of. rewrite filter_cons, filter_nil. simpl.
  by repeat case_decide.
Qed.

Lemma other_ranges_singleton c r :
  other_ranges [(c, r)]
  = if decide ((c ∉ TIER1_COUNTRIES) ∧ (c ∉ TIER2_COUNTRIES)) then [r] else [].
Proof.
  unfold other_ranges. rewrite filter_cons, filter_nil. simpl.
  by repeat case_decide.
Qed.

Lemma buckets_of_initial : buckets_of [] initial_buckets.
Proof.
  split; [|split]; [intros c..|done]; simpl;
    rewrite lookup_gset_to_gmap; by case_decide; simplify_option_eq.
Qed.

Lemma buckets_of_keys recs b : buckets_of recs b → keys_ok b.
Proof.
  intros (H1 & H2 & _). split; apply set_eq; intros c;
    rewrite elem_of_dom; [rewrite H1|rewrite H2];
    case_decide; split; try done; try (intros []; done); eauto.
Qed.

Section RecordFacts.
Variable str_strip : string → string.
Variable ip_network : string → option range.
Variable country_map : gmap (option string) string.

Abbreviation classify_row := (classify_row str_strip ip_network country_map).
Abbreviation classify := (classify str_strip ip_network country_map).
Abbreviation build_table := (build_table str_strip ip_network country_map).
Abbreviation kept_record := (kept_record str_strip ip_network country_map).
Abbreviation kept_records := (kept_records str_strip ip_network country_map).

(** One row: the buckets of the records so far become the buckets of the
    records with the one this row gives, if it gives one. *)
Lemma classify_row_buckets recs b row :
  buckets_of recs b →
  ∃ b', classify_row b row = Ok b' ∧
        buckets_of (recs ++ option_list (kept_record row)) b'.
Proof.
  intros Hb. pose proof Hb as (H1 & H2 & H3).
  unfold classify_row, kept_record.
  destruct (truthy (resolve_country country_map row));
    [|exists b; by rewrite app_nil_r].
  unfold classify_body, dict_getitem.
  destruct (row !! "network") as [network|]; simpl;
    [|exists b; by rewrite app_nil_r].
  destruct (ip_network (str_strip network)) as [r|]; simpl;
    [|exists b; by rewrite app_nil_r].
  set (c := resolve_country country_map row).
  case_bool_decide as Hc1; [|case_bool_decide as Hc2].
  - unfold dict_append, dict_getitem. rewrite H1, decide_True by done. simpl.
    eexists. split; [done|]. split; [|split]; simpl.
    + intros c'. rewrite ranges_of_app, ranges_of_singleton.
      destruct (decide (c = c')) as [<-|Hne].
      * by rewrite lookup_insert_eq, decide_True.
      * rewrite lookup_insert_ne, H1 by done.
        case_decide; by rewrite ?app_nil_r.
    + intros c'. rewrite ranges_of_app, ranges_of_singleton, H2.
      case_decide as Hc'; [|done]. rewrite decide_False, app_nil_r; [done|].
      intros ->. assert (c' ∈ TIER1_COUNTRIES ∩ TIER2_COUNTRIES) as Hboth
        by set_solver. by vm_compute in Hboth.
    + rewrite other_ranges_app, other_ranges_singleton, H3.
      rewrite decide_False, app_nil_r; [done|tauto].
  - unfold dict_append, dict_getitem. rewrite H2, decide_True by done. simpl.
    eexists. split; [done|]. split; [|split]; simpl.
    + intros c'. rewrite ranges_of_app, ranges_of_singleton, H1.
      case_decide as Hc'; [|done]. rewrite decide_False, app_nil_r; [done|].
      by intros ->.
    + intros c'. rewrite ranges_of_app, ranges_of_singleton.
      destruct (decide (c = c')) as [<-|Hne].
      * by rewrite lookup_insert_eq, decide_True.
      * rewrite lookup_insert_ne, H2 by done.
        case_decide; by rewrite ?app_nil_r.
    + rewrite other_ranges_app, other_ranges_singleton, H3.
      rewrite decide_False, app_nil_r; [done|tauto].
  - eexists. split; [done|]. split; [|split]; simpl.
    + intros c'. rewrite ranges_of_app, ranges_of_singleton, H1.
      case_decide as Hc'; [|done]. rewrite decide_False, app_nil_r; [done|].
      by intros ->.
    + intros c'. rewrite ranges_of_app, ranges_of_singleton, H2.
      case_decide as Hc'; [|done]. rewrite decide_False, app_nil_r; [done|].
      by intros ->.
    + rewrite other_ranges_app, other_ranges_singleton, H3.
      by rewrite decide_True.
Qed.

Lemma for_each_classify_buckets rows : ∀ recs b,
  buckets_of recs b →
  ∃ b', for_each classify_row b rows = Ok b' ∧
        buckets_of (recs ++ kept_records rows) b'.
Proof.
  induction rows as [|row rows IH]; intros recs b Hb; simpl.
  - exists b. by rewrite app_nil_r.
  - destruct (classify_row_buckets recs b row Hb) as (b1 & -> & Hb1). simpl.
    destruct (IH _ _ Hb1) as (b' & -> & Hb').
    exists b'. split; [done|].
    unfold kept_records. simpl.
    destruct (kept_record row); simpl in *; by rewrite <- ?app_assoc in Hb'.
Qed.

Lemma classify_buckets rows :
  ∃ b, classify rows = Ok b ∧ buckets_of (kept_records rows) b.
Proof. apply (for_each_classify_buckets rows [] _ buckets_of_initial). Qed.
End RecordFacts.

(** * Further properties of the table *)

Lemma elem_of_tagged c (l : list range) (e : entry) :
  e ∈ tag c <$> l ↔ entry_code e = c ∧ entry_range e ∈ l.
Proof.
  rewrite list_elem_of_fmap. destruct e as [[s e'] c0].
  unfold entry_code, entry_range, tag. simpl. split.
  - intros ([a b] & [= -> -> ->] & Hr). done.
  - intros [-> Hr]. by exists (s, e').
Qed.

Lemma elem_of_emitted data tier_level codes (e : entry) :
  e ∈ emitted data tier_level codes ↔
  entry_code e ∈ codes ∧
  entry_range e
    ∈ tiered_merge_ranges (default [] (data !! entry_code e)) tier_level.
Proof.
  unfold emitted. rewrite list_elem_of_In, in_flat_map. split.
  - intros (c & Hc & He). apply list_elem_of_In in Hc, He.
    apply elem_of_tagged in He as [<- He]. done.
  - intros [Hc He]. exists (entry_code e).
    rewrite <- !list_elem_of_In. split; [done|]. by apply elem_of_tagged.
Qed.

Lemma other_not_tier1 : OTHER_COUNTRY_CODE ∉ TIER1_COUNTRIES.
Proof. by vm_compute. Qed.

Lemma other_not_tier2 : OTHER_COUNTRY_CODE ∉ TIER2_COUNTRIES.
Proof. by vm_compute. Qed.

Lemma tiers_disjoint c : c ∈ TIER1_COUNTRIES → c ∈ TIER2_COUNTRIES → False.
Proof.
  intros H1 H2. assert (c ∈ TIER1_COUNTRIES ∩ TIER2_COUNTRIES) as Hboth
    by set_solver. by vm_compute in Hboth.
Qed.

(** The entries that the buckets of the records [recs] give. *)
Lemma elem_of_all_entries recs b (e : entry) :
  buckets_of recs b →
  e ∈ all_entries b ↔
  table_code (entry_code e) ∧
  entry_range e
    ∈ tiered_merge_ranges (source_ranges (entry_code e) recs)
        (tier_of (entry_code e)).
Proof.
  intros (H1 & H2 & H3). unfold all_entries, table_code, source_ranges, tier_of.
  rewrite !elem_of_app, !elem_of_emitted, elem_of_tagged, !sorted_codes_elem.
  rewrite H1, H2, H3.
  pose proof other_not_tier1. pose proof other_not_tier2.
  pose proof (tiers_disjoint (entry_code e)).
  repeat case_decide; simpl; try tauto; try congruence; intuition congruence.
Qed.

Lemma elem_of_ranges_of c recs r : r ∈ ranges_of c recs ↔ (c, r) ∈ recs.
Proof.
  unfold ranges_of. rewrite list_elem_of_fmap. split.
  - intros ([c' r'] & -> & Hin). apply list_elem_of_filter in Hin as [Hc Hin].
    simpl in *. by subst.
  - intros Hin. exists (c, r). split; [done|].
    by apply list_elem_of_filter.
Qed.

Lemma elem_of_other_ranges recs r :
  r ∈ other_ranges recs ↔
  ∃ c, (c, r) ∈ recs ∧ (c ∉ TIER1_COUNTRIES) ∧ (c ∉ TIER2_COUNTRIES).
Proof.
  unfold other_ranges. rewrite list_elem_of_fmap. split.
  - intros ([c' r'] & -> & Hin). apply list_elem_of_filter in Hin as [Hc Hin].
    by exists c'.
  - intros (c & Hin & Hc). exists (c, r). split; [done|].
    by apply list_elem_of_filter.
Qed.

(** The list merged for a code holds the ranges of the records emitted
    under that code. *)
Lemma elem_of_source_ranges code recs r :
  table_code code →
  r ∈ source_ranges code recs ↔ ∃ c, (c, r) ∈ recs ∧ emitted_code_of c = code.
Proof.
  intros Hcode. unfold source_ranges, emitted_code_of.
  pose proof other_not_tier1. pose proof other_not_tier2.
  case_decide as Hc.
  - rewrite elem_of_ranges_of. split.
    + intros Hin. exists code. by rewrite decide_True.
    + intros (c & Hin & Heq). case_decide; [by subst|].
      subst. tauto.
  - rewrite elem_of_other_ranges.
    assert (code = OTHER_COUNTRY_CODE) as -> by (unfold table_code in *; tauto).
    split.
    + intros (c & Hin & Hc1 & Hc2). exists c. split; [done|].
      rewrite decide_False; [done|tauto].
    + intros (c & Hin & Heq). exists c. split; [done|].
      case_decide; [subst; tauto|tauto].
Qed.

(** A record in [kept_records] is the record of one of the rows. *)
Lemma elem_of_kept_records str_strip ip_network country_map rows p :
  p ∈ kept_records str_strip ip_network country_map rows ↔
  ∃ row, row ∈ rows ∧ kept_record str_strip ip_network country_map row = Some p.
Proof. unfold kept_records. apply list_elem_of_omap. Qed.

Lemma kept_records_length str_strip ip_network country_map rows :
  (length (kept_records str_strip ip_network country_map rows) ≤ length rows)%nat.
Proof.
  unfold kept_records. induction rows as [|row rows IH]; [done|].
  cbn [omap list_omap length].
  destruct (kept_record _ _ _ row); cbn [length]; lia.
Qed.

(** The run in closed form: the table is the sorted list of the entries that
    the buckets of the kept records give. *)
Lemma build_table_closed str_strip ip_network country_map rows :
  ∃ b,
    buckets_of (kept_records str_strip ip_network country_map rows) b ∧
    build_table str_strip ip_network country_map rows
    = Ok (sort_by entry_leb (all_entries b)).
Proof.
  destruct (classify_buckets str_strip ip_network country_map rows)
    as (b & Hb & Hbuckets).
  exists b. split; [done|]. unfold build_table. rewrite Hb. simpl.
  by apply assemble_ok, (buckets_of_keys _ _ Hbuckets).
Qed.

Lemma build_table_entries str_strip ip_network country_map rows :
  ∃ table,
    build_table str_strip ip_network country_map rows = Ok table ∧
    ∀ e : entry,
      e ∈ table ↔
      table_code (entry_code e) ∧
      entry_range e
        ∈ tiered_merge_ranges
            (source_ranges (entry_code e)
               (kept_records str_strip ip_network country_map rows))
            (tier_of (entry_code e)).
Proof.
  destruct (build_table_closed str_strip ip_network country_map rows)
    as (b & Hb & ->).
  eexists. split; [done|]. intros e.
  rewrite (sort_by_perm entry_leb (all_entries b)).
  by apply elem_of_all_entries.
Qed.

(** Sizes of disjoint selections of a list. *)
Lemma filter_length_disjoint {A} (P Q R : A → Prop)
    `{∀ x, Decision (P x)} `{∀ x, Decision (Q x)} `{∀ x, Decision (R x)} l :
  (∀ x, P x → R x) → (∀ x, Q x → R x) → (∀ x, P x → Q x → False) →
  (length (filter P l) + length (filter Q l) ≤ length (filter R l))%nat.
Proof.
  intros HP HQ HPQ. induction l as [|x l IH]; [done|].
  rewrite !filter_cons.
  destruct (decide (P x)), (decide (Q x)), (decide (R x)); simpl;
    try lia; exfalso; eauto.
Qed.

Lemma emitted_length data tier_level codes recs :
  NoDup codes →
  (∀ c, c ∈ codes → data !! c = Some (ranges_of c recs)) →
  (length (emitted data tier_level codes)
   ≤ length (filter (λ p : string * range, p.1 ∈ codes) recs))%nat.
Proof.
  induction 1 as [|c codes Hc Hnd IH]; intros Hdata; simpl; [lia|].
  rewrite length_app, length_fmap, Hdata by left. simpl.
  pose proof (tiered_merge_ranges_length (ranges_of c recs) tier_level) as Hm.
  assert (length (ranges_of c recs)
          = length (filter (λ p : string * range, p.1 = c) recs)) as Hr
    by (unfold ranges_of; by rewrite length_fmap).
  pose proof (filter_length_disjoint
                (λ p : string * range, p.1 = c)
                (λ p : string * range, p.1 ∈ codes)
                (λ p : string * range, p.1 ∈ c :: codes) recs) as Hd.
  assert (length (emitted data tier_level codes)
          ≤ length (filter (λ p : string * range, p.1 ∈ codes) recs))%nat as Hi.
  { apply IH. intros c' Hc'. apply Hdata. by right. }
  etrans; [|apply Hd].
  - lia.
  - intros p ->. left.
  - intros p Hp. by right.
  - intros p -> Hp. done.
Qed.

Lemma all_entries_length recs b :
  buckets_of recs b → (length (all_entries b) ≤ length recs)%nat.
Proof.
  intros (H1 & H2 & H3). unfold all_entries.
  rewrite !length_app, length_fmap.
  pose proof (emitted_length (tier1_data b) 1 (sorted_codes TIER1_COUNTRIES) recs
                (sorted_codes_NoDup _)) as Hl1.
  pose proof (emitted_length (tier2_data b) 2 (sorted_codes TIER2_COUNTRIES) recs
                (sorted_codes_NoDup _)) as Hl2.
  pose proof (tiered_merge_ranges_length (tier3_data b) 3) as Hl3.
  rewrite H3 in Hl3 |- *.
  assert (length (other_ranges recs)
          = length (filter (λ p : string * range,
                      (p.1 ∉ TIER1_COUNTRIES) ∧ (p.1 ∉ TIER2_COUNTRIES)) recs))
    as Hother by (unfold other_ranges; by rewrite length_fmap).
  pose proof (filter_length_disjoint
                (λ p : string * range, p.1 ∈ sorted_codes TIER1_COUNTRIES)
                (λ p : string * range, p.1 ∈ sorted_codes TIER2_COUNTRIES)
                (λ p : string * range,
                   p.1 ∈ TIER1_COUNTRIES ∨ p.1 ∈ TIER2_COUNTRIES) recs) as Hd12.
  pose proof (filter_length_disjoint
                (λ p : string * range,
                   p.1 ∈ TIER1_COUNTRIES ∨ p.1 ∈ TIER2_COUNTRIES)
                (λ p : string * range,
                   (p.1 ∉ TIER1_COUNTRIES) ∧ (p.1 ∉ TIER2_COUNTRIES))
                (λ _ : string * range, True) recs) as Hd3.
  pose proof (length_filter (λ _ : string * range, True) recs) as Hall.
  assert (length (emitted (tier1_data b) 1 (sorted_codes TIER1_COUNTRIES))
          + length (emitted (tier2_data b) 2 (sorted_codes TIER2_COUNTRIES))
          ≤ length (filter (λ p : string * range,
                      p.1 ∈ TIER1_COUNTRIES ∨ p.1 ∈ TIER2_COUNTRIES) recs))%nat.
  { etrans; [|apply Hd12].
    - apply Nat.add_le_mono; [apply Hl1|apply Hl2]; intros c Hc;
        apply sorted_codes_elem in Hc; [rewrite H1|rewrite H2];
        by rewrite decide_True.
    - intros p Hp. left. by apply sorted_codes_elem.
    - intros p Hp. right. by apply sorted_codes_elem.
    - intros p Hp1 Hp2. apply sorted_codes_elem in Hp1, Hp2.
      by eapply tiers_disjoint. }
  etrans; [|apply Hall]. etrans; [|apply Hd3]; [lia|done|done|tauto].
Qed.

Lemma tiered_merge_ranges_well_formed ranges tier_level :
  Forall well_formed ranges →
  Forall well_formed (tiered_merge_ranges ranges tier_level).
Proof.
  intros Hwf. destruct ranges as [|r0 ranges]; [constructor|].
  destruct (tiered_merge_ranges_sweep (r0 :: ranges) tier_level)
    as (cs & ce & rest & Hs & ->); [done|].
  pose proof (sort_ranges_perm (r0 :: ranges)) as Hp. rewrite Hs in Hp.
  rewrite <- Hp in Hwf. apply Forall_cons in Hwf as [Hc Hrest].
  by apply sweep_well_formed.
Qed.

Lemma emitted_code_of_table c : table_code (emitted_code_of c).
Proof. unfold table_code, emitted_code_of. case_decide; tauto. Qed.

Lemma emitted_ext data data' tier_level codes :
  (∀ c, c ∈ codes → default [] (data !! c) ≡ₚ default [] (data' !! c)) →
  emitted data tier_level codes = emitted data' tier_level codes.
Proof.
  induction codes as [|c codes IH]; intros Hd; simpl; [done|].
  rewrite (tiered_merge_ranges_perm _ _ tier_level (Hd c ltac:(left))).
  f_equal. apply IH. intros c' Hc'. apply Hd. by right.
Qed.

Lemma all_entries_perm recs recs' b b' :
  recs ≡ₚ recs' → buckets_of recs b → buckets_of recs' b' →
  all_entries b = all_entries b'.
Proof.
  intros Hp (H1 & H2 & H3) (H1' & H2' & H3'). unfold all_entries.
  assert (∀ c, ranges_of c recs ≡ₚ ranges_of c recs') as Hr
    by (intros c; unfold ranges_of; by rewrite Hp).
  f_equal; [|f_equal].
  - apply emitted_ext. intros c _. rewrite H1, H1'. case_decide; simpl; auto.
  - apply emitted_ext. intros c _. rewrite H2, H2'. case_decide; simpl; auto.
  - f_equal. apply tiered_merge_ranges_perm. rewrite H3, H3'.
    unfold other_ranges. by rewrite Hp.
Qed.

Section TableFacts.
Variable str_strip : string → string.
Variable ip_network : string → option range.
Variable country_map : gmap (option string) string.

Abbreviation classify := (classify str_strip ip_network country_map).
Abbreviation build_table := (build_table str_strip ip_network country_map).
Abbreviation kept_record := (kept_record str_strip ip_network country_map).
Abbreviation kept_records := (kept_records str_strip ip_network country_map).
Abbreviation kept_under := (kept_under str_strip ip_network country_map).

Lemma covered_source_ranges rows code x :
  table_code code →
  covered x (source_ranges code (kept_records rows)) ↔ kept_under rows code x.
Proof.
  intros Hcode. unfold covered, kept_under. split.
  - intros (r & Hr & Hin).
    apply (elem_of_source_ranges _ _ _ Hcode) in Hr as (c & Hc & Heq).
    apply elem_of_kept_records in Hc as (row & Hrow & Hkept).
    by exists row, c, r.
  - intros (row & c & r & Hrow & Hkept & Heq & Hin). exists r. split; [|done].
    apply (elem_of_source_ranges _ _ _ Hcode). exists c. split; [|done].
    apply elem_of_kept_records. by exists row.
Qed.

Lemma covered_entry_range x (e : entry) l :
  entry_range e ∈ l → in_entry x e → covered x l.
Proof.
  intros He Hx. exists (entry_range e). split; [done|].
  by destruct e as [[? ?] ?].
Qed.

Lemma build_table_inv rows table (e : entry) :
  build_table rows = Ok table →
  e ∈ table ↔
  table_code (entry_code e) ∧
  entry_range e
    ∈ tiered_merge_ranges (source_ranges (entry_code e) (kept_records rows))
        (tier_of (entry_code e)).
Proof.
  intros Hrun.
  destruct (build_table_entries str_strip ip_network country_map rows)
    as (table' & Hrun' & Hentries).
  rewrite Hrun in Hrun'. injection Hrun' as <-. apply Hentries.
Qed.

Lemma kept_wf rows :
  (∀ s r, ip_network s = Some r → well_formed r) →
  Forall (λ p, well_formed p.2) (kept_records rows).
Proof.
  intros Hparse. apply Forall_forall. intros [c r] Hin.
  apply elem_of_kept_records in Hin as (row & _ & Hkept).
  unfold kept_record in Hkept.
  destruct (truthy _); [|done].
  destruct (row !! "network") as [network|]; simpl in Hkept; [|done].
  destruct (ip_network (str_strip network)) as [r'|] eqn:Hr; simpl in Hkept;
    [|done].
  injection Hkept as _ <-. simpl. by eapply Hparse.
Qed.

Lemma source_ranges_wf code recs :
  Forall (λ p : string * range, well_formed p.2) recs →
  Forall well_formed (source_ranges code recs).
Proof.
  intros Hwf. unfold source_ranges, ranges_of, other_ranges.
  case_decide; apply Forall_fmap; apply Forall_forall; intros p Hp;
    apply list_elem_of_filter in Hp as [_ Hp];
    by apply (proj1 (Forall_forall _ _) Hwf).
Qed.
End TableFacts.

(** Classification in closed form. When [open] or the reader raises,
    classification raises. When the file is read to its end, classification
    returns: the tier-1 list of a tier-1 code holds the ranges of the kept
    records of that code in the order of the rows, the same for tier 2, the
    tier-3 list holds the ranges of the kept records of every other code in
    the order of the rows, and the dicts have no other key. *)
Theorem classifier_closed_form
    (str_strip : string → string) (ip_network : string → option range)
    (country_map : gmap (option string) string) :
  (∀ f, blocks_fails f →
        classify_file str_strip ip_network country_map f = None) ∧
  (∀ rows, ∃ b,
     classify_file str_strip ip_network country_map
       (Some (BlocksFile rows false)) = Some b ∧
     buckets_of (kept_records str_strip ip_network country_map rows) b).
Proof.
  split.
  - intros f. apply classify_file_none.
  - intros rows.
    destruct (classify_buckets str_strip ip_network country_map rows)
      as (b & Hb & Hbuckets).
    exists b. split; [|done]. simpl. by rewrite Hb.
Qed.

(** The table in closed form. When [open] or the reader raises, the run
    ends without a table. When the file is read to its end, the run gives a
    table, and an entry is in it exactly when its code is a tier-1 code, a
    tier-2 code or [ZZ], and its range is an interval of the merge, at the
    tier level of the code, of the ranges of the kept records emitted under
    that code. *)
Theorem table_closed_form
    (str_strip : string → string) (ip_network : string → option range)
    (country_map : gmap (option string) string) :
  (∀ f, blocks_fails f → run_table str_strip ip_network country_map f = None) ∧
  (∀ rows, ∃ table,
     run_table str_strip ip_network country_map (Some (BlocksFile rows false))
     = Some table ∧
     build_table str_strip ip_network country_map rows = Ok table ∧
     ∀ e : entry,
       e ∈ table ↔
       table_code (entry_code e) ∧
       entry_range e
         ∈ tiered_merge_ranges
             (source_ranges (entry_code e)
                (kept_records str_strip ip_network country_map rows))
             (tier_of (entry_code e))).
Proof.
  split.
  - intros f. apply run_table_fails.
  - intros rows.
    destruct (run_table_read str_strip ip_network country_map rows)
      as (table & Hbuild & Hrun).
    exists table. split; [done|]. split; [done|].
    intros e. by apply build_table_inv.
Qed.

(** The table does not depend on the order of the rows of the blocks
    file. *)
Theorem table_row_order_independent
    (str_strip : string → string) (ip_network : string → option range)
    (country_map : gmap (option string) string) (rows rows' : list csv_row) :
  rows ≡ₚ rows' →
  build_table str_strip ip_network country_map rows
  = build_table str_strip ip_network country_map rows'.
Proof.
  intros Hp.
  destruct (build_table_closed str_strip ip_network country_map rows)
    as (b & Hb & ->).
  destruct (build_table_closed str_strip ip_network country_map rows')
    as (b' & Hb' & ->).
  do 2 f_equal. eapply all_entries_perm; [|exact Hb|exact Hb'].
  unfold kept_records. by rewrite Hp.
Qed.

Lemma table_row_order_independent_witness :
  Demo.build (rev Demo.rows) = Demo.build Demo.rows.
Proof.
  apply table_row_order_independent. symmetry. apply Permutation_rev.
Defined.

(** The table has at most one entry per kept record, so at most one per
    row. *)
Theorem table_size_bounded
    (str_strip : string → string) (ip_network : string → option range)
    (country_map : gmap (option string) string) (rows : list csv_row) :
  ∃ table,
    build_table str_strip ip_network country_map rows = Ok table ∧
    (length table
     ≤ length (kept_records str_strip ip_network country_map rows)
     ≤ length rows)%nat.
Proof.
  destruct (build_table_closed str_strip ip_network country_map rows)
    as (b & Hb & ->).
  eexists. split; [done|]. rewrite sort_by_length.
  split; [by apply all_entries_length|apply kept_records_length].
Qed.

(** Every address of a kept record is in the table under the code the record
    is emitted under: its own code for a tier-1 or tier-2 code, [ZZ]
    otherwise. *)
Theorem table_covers_kept_records
    (str_strip : string → string) (ip_network : string → option range)
    (country_map : gmap (option string) string)
    (rows : list csv_row) (table : list entry) (code : string) (x : Z) :
  build_table str_strip ip_network country_map rows = Ok table →
  kept_under str_strip ip_network country_map rows code x →
  ∃ e, e ∈ table ∧ entry_code e = code ∧ in_entry x e.
Proof.
  intros Hrun Hx.
  assert (table_code code) as Hcode.
  { destruct Hx as (_ & c & _ & _ & _ & <- & _). apply emitted_code_of_table. }
  apply (covered_source_ranges _ _ _ _ _ _ Hcode) in Hx.
  apply (tiered_merge_ranges_covers _ _ (tier_of code)) in Hx
    as ([s e'] & Hr & Hin).
  exists (s, e', code). split; [|done].
  by apply (build_table_inv _ _ _ _ _ _ Hrun).
Qed.

Lemma table_covers_kept_records_witness :
  ∃ e, e ∈ [(16777216, 16777983, "ZZ"); (16777472, 16777727, "CN")] ∧
       entry_code e = "ZZ" ∧ in_entry 16777300 e.
Proof.
  apply (table_covers_kept_records Py.strip Py.ip_network Demo.locations
           Demo.rows).
  - by vm_compute.
  - exists (Demo.block "1.0.0.0/24" "3469034"), "BR", (16777216, 16777471).
    split; [left|]. split; [by vm_compute|]. split; [by vm_compute|simpl; lia].
Defined.

(** Tier 1 is exact: an address under a tier-1 code in the table is an
    address of a kept record of that code. *)
Theorem table_tier1_exact
    (str_strip : string → string) (ip_network : string → option range)
    (country_map : gmap (option string) string)
    (rows : list csv_row) (table : list entry) (e : entry) (x : Z) :
  build_table str_strip ip_network country_map rows = Ok table →
  e ∈ table → entry_code e ∈ TIER1_COUNTRIES → in_entry x e →
  kept_under str_strip ip_network country_map rows (entry_code e) x.
Proof.
  intros Hrun He Hcode Hx.
  apply (build_table_inv _ _ _ _ _ _ Hrun) in He as [Htc He].
  apply covered_source_ranges; [done|].
  apply tiered_merge_ranges_covered_by.
  replace 1 with (tier_of (entry_code e))
    by (unfold tier_of; by rewrite decide_True).
  by eapply covered_entry_range.
Qed.

Lemma table_tier1_exact_witness :
  kept_under Py.strip Py.ip_network Demo.locations Demo.rows "CN" 16777500.
Proof.
  apply (table_tier1_exact Py.strip Py.ip_network Demo.locations Demo.rows
           [(16777216, 16777983, "ZZ"); (16777472, 16777727, "CN")]
           (16777472, 16777727, "CN") 16777500).
  - by vm_compute.
  - right. left.
  - by vm_compute.
  - unfold in_entry, entry_start, entry_end. simpl. lia.
Defined.

(** The concrete parser gives [start <= end]. *)
Lemma py_ip_network_well_formed s r :
  Py.ip_network s = Some r → well_formed r.
Proof.
  destruct r as [a b]. unfold Py.ip_network, well_formed.
  destruct (Py.split "/" s) as [|addr [|len [|? ?]]]; try done.
  destruct (Py.address addr) as [n|]; simpl; [|done].
  destruct (Py.decimal len) as [p|]; simpl; [|done].
  destruct (p <=? 32) eqn:Hp; [|done].
  destruct (n mod 2 ^ (32 - p) =? 0); [|done].
  intros [= <- <-]. simpl. apply Z.leb_le in Hp.
  assert (0 < 2 ^ (32 - p)); [|lia].
  apply Z.pow_pos_nonneg; lia.
Qed.

(** With a parser that gives [start <= end], an address in the table under a
    code lies between two addresses of kept records emitted under that code
    that are at most the threshold of the code's tier apart (the two are the
    address itself when a record holds it): a code reaches no further than
    the gaps its tier closes. *)
Theorem table_reach_bounded
    (str_strip : string → string) (ip_network : string → option range)
    (country_map : gmap (option string) string)
    (rows : list csv_row) (table : list entry) (e : entry) (x : Z) :
  (∀ s r, ip_network s = Some r → well_formed r) →
  build_table str_strip ip_network country_map rows = Ok table →
  e ∈ table → in_entry x e →
  ∃ a b,
    a ≤ x ≤ b ∧ b - a ≤ merge_threshold (tier_of (entry_code e)) ∧
    kept_under str_strip ip_network country_map rows (entry_code e) a ∧
    kept_under str_strip ip_network country_map rows (entry_code e) b.
Proof.
  intros Hparse Hrun He Hx.
  apply (build_table_inv _ _ _ _ _ _ Hrun) in He as [Htc He].
  pose proof (covered_entry_range _ _ _ He Hx) as Hcov.
  apply tiered_merge_ranges_gaps in Hcov;
    [|by apply source_ranges_wf, kept_wf].
  pose proof (merge_threshold_pos (tier_of (entry_code e))).
  destruct Hcov as [Hcov|(a & b & Ha & Hb & Hab & Hgap)].
  - apply covered_source_ranges in Hcov; [|done].
    exists x, x. split; [lia|]. split; [lia|done].
  - apply covered_source_ranges in Ha, Hb; [|done..].
    exists a, b. split; [lia|done].
Qed.

Lemma table_reach_bounded_witness :
  ∃ a b,
    a ≤ 16777500 ≤ b ∧ b - a ≤ merge_threshold (tier_of "ZZ") ∧
    kept_under Py.strip Py.ip_network Demo.locations Demo.rows "ZZ" a ∧
    kept_under Py.strip Py.ip_network Demo.locations Demo.rows "ZZ" b.
Proof.
  apply (table_reach_bounded Py.strip Py.ip_network Demo.locations Demo.rows
           [(16777216, 16777983, "ZZ"); (16777472, 16777727, "CN")]
           (16777216, 16777983, "ZZ") 16777500).
  - apply py_ip_network_well_formed.
  - by vm_compute.
  - left.
  - unfold in_entry, entry_start, entry_end. simpl. lia.
Defined.

(** Two different entries of the table with the same code are further apart
    than the threshold of the code's tier: one ends more than the threshold
    before the other starts. *)
Theorem table_same_code_apart
    (str_strip : string → string) (ip_network : string → option range)
    (country_map : gmap (option string) string)
    (rows : list csv_row) (table : list entry) (e1 e2 : entry) :
  build_table str_strip ip_network country_map rows = Ok table →
  e1 ∈ table → e2 ∈ table → entry_code e1 = entry_code e2 → e1 ≠ e2 →
  entry_start e2 - entry_end e1 > merge_threshold (tier_of (entry_code e1)) ∨
  entry_start e1 - entry_end e2 > merge_threshold (tier_of (entry_code e1)).
Proof.
  intros Hrun He1 He2 Hcode Hne.
  apply (build_table_inv _ _ _ _ _ _ Hrun) in He1 as [_ He1], He2 as [_ He2].
  rewrite <- Hcode in He2.
  destruct (tiered_merge_ranges_apart _ _ _ _ He1 He2) as [Heq|[Hg|Hg]].
  - destruct e1 as [[s1 e1'] c1], e2 as [[s2 e2'] c2].
    unfold entry_range, entry_code in *. simpl in *. congruence.
  - left. by destruct e1 as [[? ?] ?], e2 as [[? ?] ?].
  - right. by destruct e1 as [[? ?] ?], e2 as [[? ?] ?].
Qed.

Lemma table_same_code_apart_witness :
  let table : list entry :=
    [(16777216, 16777471, "ZZ"); (1677721600, 1677721855, "ZZ")] in
  Demo.build [Demo.block "1.0.0.0/24" "3469034";
              Demo.block "100.0.0.0/24" "3469034"] = Ok table ∧
  (1677721600 - 16777471 > merge_threshold (tier_of "ZZ") ∨
   16777216 - 1677721855 > merge_threshold (tier_of "ZZ")).
Proof.
  intros table.
  assert (Demo.build [Demo.block "1.0.0.0/24" "3469034";
                      Demo.block "100.0.0.0/24" "3469034"] = Ok table) as Hrun
    by by vm_compute.
  split; [done|].
  apply (table_same_code_apart Py.strip Py.ip_network Demo.locations _ table
           (16777216, 16777471, "ZZ") (1677721600, 1677721855, "ZZ") Hrun).
  - left.
  - right. left.
  - done.
  - discriminate.
Defined.

(** The table invents no boundary: an entry starts at the network address of
    a kept record emitted under its code, and ends at the broadcast address
    of such a record. *)
Theorem table_boundaries_from_records
    (str_strip : string → string) (ip_network : string → option range)
    (country_map : gmap (option string) string)
    (rows : list csv_row) (table : list entry) (e : entry) :
  build_table str_strip ip_network country_map rows = Ok table →
  e ∈ table →
  (∃ c r, (c, r) ∈ kept_records str_strip ip_network country_map rows ∧
          emitted_code_of c = entry_code e ∧ r.1 = entry_start e) ∧
  (∃ c r, (c, r) ∈ kept_records str_strip ip_network country_map rows ∧
          emitted_code_of c = entry_code e ∧ r.2 = entry_end e).
Proof.
  intros Hrun He.
  apply (build_table_inv _ _ _ _ _ _ Hrun) in He as [Htc He].
  destruct e as [[s e'] code]. unfold entry_range, entry_code in *. simpl in *.
  apply tiered_merge_ranges_endpoints in He as [[e1 H1] [s2 H2]].
  apply (elem_of_source_ranges _ _ _ Htc) in H1 as (c1 & Hc1 & Heq1).
  apply (elem_of_source_ranges _ _ _ Htc) in H2 as (c2 & Hc2 & Heq2).
  split; [by exists c1, (s, e1)|by exists c2, (s2, e')].
Qed.

Lemma table_boundaries_from_records_witness :
  let e : entry := (16777216, 16777983, "ZZ") in
  (∃ c r, (c, r) ∈ kept_records Py.strip Py.ip_network Demo.locations Demo.rows ∧
          emitted_code_of c = entry_code e ∧ r.1 = entry_start e) ∧
  (∃ c r, (c, r) ∈ kept_records Py.strip Py.ip_network Demo.locations Demo.rows ∧
          emitted_code_of c = entry_code e ∧ r.2 = entry_end e).
Proof.
  intros e.
  apply (table_boundaries_from_records Py.strip Py.ip_network Demo.locations
           Demo.rows [(16777216, 16777983, "ZZ"); (16777472, 16777727, "CN")]).
  - by vm_compute.
  - left.
Defined.

(** With a parser that gives [start <= end], every entry of the table has
    [start <= end]. *)
Theorem table_entries_well_formed
    (str_strip : string → string) (ip_network : string → option range)
    (country_map : gmap (option string) string)
    (rows : list csv_row) (table : list entry) (e : entry) :
  (∀ s r, ip_network s = Some r → well_formed r) →
  build_table str_strip ip_network country_map rows = Ok table →
  e ∈ table → entry_start e ≤ entry_end e.
Proof.
  intros Hparse Hrun He.
  apply (build_table_inv _ _ _ _ _ _ Hrun) in He as [_ He].
  assert (Forall well_formed
            (tiered_merge_ranges
               (source_ranges (entry_code e)
                  (kept_records str_strip ip_network country_map rows))
               (tier_of (entry_code e)))) as Hwf
    by by apply tiered_merge_ranges_well_formed, source_ranges_wf, kept_wf.
  rewrite Forall_forall in Hwf. destruct e as [[s e'] c]. apply (Hwf _ He).
Qed.

Lemma table_entries_well_formed_witness :
  let e : entry := (16777216, 16777983, "ZZ") in
  entry_start e ≤ entry_end e.
Proof.
  intros e.
  apply (table_entries_well_formed Py.strip Py.ip_network Demo.locations
           Demo.rows [(16777216, 16777983, "ZZ"); (16777472, 16777727, "CN")]).
  - apply py_ip_network_well_formed.
  - by vm_compute.
  - left.
Defined.

(** * The locations mapping *)

Lemma load_row_pair cm row :
  load_row cm row
  = match loc_pair row with
    | Some (k, v) => Ok (<[k := v]> cm)
    | None => Raise KeyError
    end.
Proof.
  unfold load_row, loc_pair, dict_getitem.
  destruct (row !! "country_iso_code") as [v|]; simpl; [|done].
  by destruct (row !! "geoname_id") as [k|].
Qed.

(** The dict after a file: the rows stored before the first failure, one
    after the other, on top of what the dict held. *)
Lemma load_rows_stored rows : ∀ cm,
  (load_rows cm rows).1
  = foldl store_row cm (stored_rows rows).
Proof.
  induction rows as [|row rows IH]; intros cm; [done|].
  cbn [load_rows stored_rows]. rewrite load_row_pair.
  destruct (loc_pair row) as [[k v]|] eqn:Hp; [|done].
  cbn [foldl]. rewrite IH.
  assert (store_row cm row = <[k := v]> cm) as ->
    by (unfold store_row; by rewrite Hp).
  done.
Qed.

Lemma load_rows_raised rows : ∀ cm,
  (load_rows cm rows).2 = true ↔ Exists (λ row, loc_pair row = None) rows.
Proof.
  induction rows as [|row rows IH]; intros cm; simpl.
  - rewrite Exists_nil. done.
  - rewrite load_row_pair, Exists_cons.
    destruct (loc_pair row) as [[k v]|]; simpl.
    + rewrite IH. split; [by right|by intros [?|?]].
    + split; [by left|done].
Qed.

Lemma load_file_stored cm f :
  (load_file cm f).1
  = foldl store_row cm (stored f).
Proof.
  destruct f as [f|]; simpl; [|done].
  pose proof (load_rows_stored (file_rows f) cm) as Hs.
  by destruct (load_rows cm (file_rows f)).
Qed.

Lemma load_file_raised cm f : (load_file cm f).2 = true ↔ file_fails f.
Proof.
  destruct f as [f|]; simpl; [|done].
  pose proof (load_rows_raised (file_rows f) cm) as Hr.
  destruct (load_rows cm (file_rows f)) as [cm' raised]. simpl in *.
  rewrite orb_true_iff, Hr. tauto.
Qed.

(** A key holds the code of the last stored row that has the key. *)
Lemma foldl_store_lookup rows : ∀ cm k,
  foldl store_row cm rows !! k
  = match last (codes_for k rows) with
    | Some v => Some v
    | None => cm !! k
    end.
Proof.
  induction rows as [|row rows IH]; intros cm k; simpl; [done|].
  rewrite IH. unfold codes_for, store_row. cbn [omap list_omap].
  destruct (loc_pair row) as [[k' v]|]; simpl; [|done].
  case_decide as Hk; simpl in *.
  - subst. rewrite last_cons.
    destruct (last _); [done|]. by rewrite lookup_insert_eq.
  - destruct (last _); [done|]. by rewrite lookup_insert_ne.
Qed.

Lemma codes_for_app k rows1 rows2 :
  codes_for k (rows1 ++ rows2) = codes_for k rows1 ++ codes_for k rows2.
Proof. unfold codes_for. apply omap_app. Qed.

Lemma foldl_store_app cm rows1 rows2 :
  foldl store_row cm (rows1 ++ rows2)
  = foldl store_row
      (foldl store_row cm rows1) rows2.
Proof. apply foldl_app. Qed.

(** When reading the zh-CN file does not raise, the en file is not read: for
    every key, the mapping holds the code of the last row of the zh-CN file
    with that key, and nothing for a key that no row has. *)
Theorem locations_last_row_wins
    (zh_file en_file : option csv_file) (k : option string) :
  ¬ file_fails zh_file →
  ∃ country_map,
    load_country_map zh_file en_file = Some country_map ∧
    country_map !! k = last (codes_for k (stored zh_file)).
Proof.
  intros Hok. unfold load_country_map.
  pose proof (load_file_stored ∅ zh_file) as Hs.
  pose proof (load_file_raised ∅ zh_file) as Hr.
  destruct (load_file ∅ zh_file) as [cm raised]. simpl in *.
  destruct raised; [tauto|].
  exists cm. split; [done|]. rewrite Hs, foldl_store_lookup.
  destruct (last _); [done|apply lookup_empty].
Qed.

(** When reading the zh-CN file raises and reading the en file does not,
    the mapping is that of the rows of the zh-CN file stored before it
    raised followed by the rows of the en file: what the zh-CN file stored
    stays, unless a row of the en file has the same key. *)
Theorem locations_fallback_keeps_stored
    (zh_file en_file : option csv_file) (k : option string) :
  file_fails zh_file → ¬ file_fails en_file →
  ∃ country_map,
    load_country_map zh_file en_file = Some country_map ∧
    country_map !! k
    = last (codes_for k (stored zh_file ++ stored en_file)).
Proof.
  intros Hzh Hen. unfold load_country_map.
  pose proof (load_file_stored ∅ zh_file) as Hs.
  pose proof (load_file_raised ∅ zh_file) as Hr.
  destruct (load_file ∅ zh_file) as [cm raised]. simpl in *.
  destruct raised; [|apply Hr in Hzh; done].
  pose proof (load_file_stored cm en_file) as Hs'.
  pose proof (load_file_raised cm en_file) as Hr'.
  destruct (load_file cm en_file) as [cm' raised']. simpl in *.
  destruct raised'; [tauto|].
  exists cm'. split; [done|].
  rewrite Hs', Hs, <- foldl_store_app, foldl_store_lookup.
  destruct (last _); [done|apply lookup_empty].
Qed.

(** Step 2 raises, and the run ends without a table, exactly when reading
    both files raises. *)
Theorem locations_fail_iff_both_fail (zh_file en_file : option csv_file) :
  load_country_map zh_file en_file = None ↔
  file_fails zh_file ∧ file_fails en_file.
Proof.
  unfold load_country_map.
  pose proof (load_file_raised ∅ zh_file) as Hr.
  destruct (load_file ∅ zh_file) as [cm raised]. simpl in *.
  destruct raised.
  - pose proof (load_file_raised cm en_file) as Hr'.
    destruct (load_file cm en_file) as [cm' raised']. simpl in *.
    destruct raised'; [tauto|]. split; [done|].
    intros [_ Hen]. apply Hr' in Hen. done.
  - split; [done|]. intros [Hzh _]. apply Hr in Hzh. done.
Qed.

Lemma locations_last_row_wins_witness :
  let zh : option csv_file :=
    Some (CsvFile [ {[ "geoname_id" := Some "1814991";
                       "country_iso_code" := Some "TW" ]};
                    {[ "geoname_id" := Some "1814991";
                       "country_iso_code" := Some "CN" ]} ] false) in
  ∃ country_map,
    load_country_map zh None = Some country_map ∧
    country_map !! Some "1814991" = Some "CN".
Proof.
  intros zh.
  assert (¬ file_fails zh) as Hok.
  { intros [Hr|He]; [done|]. apply Exists_exists in He as (row & Hrow & Hp).
    repeat (apply elem_of_cons in Hrow as [->|Hrow]; [by vm_compute in Hp|]).
    by apply elem_of_nil in Hrow. }
  destruct (locations_last_row_wins zh None (Some "1814991") Hok)
    as (cm & Hload & Hk).
  exists cm. split; [done|]. rewrite Hk. by vm_compute.
Defined.

Lemma locations_fallback_keeps_stored_witness :
  let zh : option csv_file :=
    Some (CsvFile [ {[ "geoname_id" := Some "1814991";
                       "country_iso_code" := Some "CN" ]} ] true) in
  let en : option csv_file :=
    Some (CsvFile [ {[ "geoname_id" := Some "3469034";
                       "country_iso_code" := Some "BR" ]} ] false) in
  ∃ country_map,
    load_country_map zh en = Some country_map ∧
    country_map !! Some "1814991" = Some "CN".
Proof.
  intros zh en.
  assert (file_fails zh) as Hzh by by left.
  assert (¬ file_fails en) as Hen.
  { intros [Hr|He]; [done|]. apply Exists_exists in He as (row & Hrow & Hp).
    repeat (apply elem_of_cons in Hrow as [->|Hrow]; [by vm_compute in Hp|]).
    by apply elem_of_nil in Hrow. }
  destruct (locations_fallback_keeps_stored zh en (Some "1814991") Hzh Hen)
    as (cm & Hload & Hk).
  exists cm. split; [done|]. rewrite Hk. by vm_compute.
Defined.

(** * The files of the archive *)

Lemma string_app_assoc (a b c : string) : (a +:+ b) +:+ c = a +:+ b +:+ c.
Proof.
  induction a as [|x a IH]; [done|].
  change (String x ((a +:+ b) +:+ c) = String x (a +:+ b +:+ c)).
  by f_equal.
Qed.

Lemma find_csv_files_none items :
  find_csv_files items = None ↔
  Forall (λ item, String.prefix "GeoLite2-Country-CSV_" item = false) items.
Proof.
  induction items as [|item items IH]; [by split|].
  cbn [find_csv_files]. rewrite Forall_cons.
  destruct (String.prefix "GeoLite2-Country-CSV_" item).
  - split; [done|]. by intros [? _].
  - rewrite IH. tauto.
Qed.

(** The function returns the two files of the first directory of the
    listing whose name starts with [GeoLite2-Country-CSV_], both inside that
    directory under the working directory. *)
Theorem download_takes_first_match (pre post : list string) (item : string) :
  Forall (λ i, String.prefix "GeoLite2-Country-CSV_" i = false) pre →
  String.prefix "GeoLite2-Country-CSV_" item = true →
  download_and_extract (Some (pre ++ item :: post))
  = Some (Some
      ("temp_tiered_data/" +:+ item +:+ "/GeoLite2-Country-Blocks-IPv4.csv",
       "temp_tiered_data/" +:+ item +:+ "/GeoLite2-Country-Locations-zh-CN.csv")).
Proof.
  intros Hpre Hitem. unfold download_and_extract. do 2 f_equal.
  induction Hpre as [|i pre Hi Hpre IH]; simpl.
  - rewrite Hitem. unfold path_join, TEMP_DIR.
    by rewrite !string_app_assoc.
  - by rewrite Hi.
Qed.

Lemma download_takes_first_match_witness :
  download_and_extract
    (Some (["source.zip"] ++ "GeoLite2-Country-CSV_20260101" :: ["notes.txt"]))
  = Some (Some
      ("temp_tiered_data/GeoLite2-Country-CSV_20260101/GeoLite2-Country-Blocks-IPv4.csv",
       "temp_tiered_data/GeoLite2-Country-CSV_20260101/GeoLite2-Country-Locations-zh-CN.csv")).
Proof.
  apply (download_takes_first_match ["source.zip"] ["notes.txt"]
           "GeoLite2-Country-CSV_20260101").
  - by repeat constructor.
  - reflexivity.
Defined.

(** When the archive unpacks and no name in the listing starts with
    [GeoLite2-Country-CSV_], the function raises nothing and returns [None];
    [main] gets no paths exactly in that case or when the download, the
    unpacking or the listing raises. *)
Theorem download_without_match (fetched : option (list string)) :
  (∀ items,
     fetched = Some items →
     (download_and_extract fetched = Some None ↔
      Forall (λ i, String.prefix "GeoLite2-Country-CSV_" i = false) items)) ∧
  (main_paths fetched = None ↔
   fetched = None ∨
   ∃ items, fetched = Some items ∧
     Forall (λ i, String.prefix "GeoLite2-Country-CSV_" i = false) items).
Proof.
  split.
  - intros items ->. simpl. rewrite <- find_csv_files_none. split; congruence.
  - unfold main_paths, download_and_extract. destruct fetched as [items|].
    + destruct (find_csv_files items) as [paths|] eqn:Hf.
      * split; [done|]. intros [?|(items' & [= <-] & Hall)]; [done|].
        apply find_csv_files_none in Hall. congruence.
      * split; [|done]. intros _. right. exists items. split; [done|].
        by apply find_csv_files_none.
    + split; [by left|done].
Qed.
